(** * strip.py: removal of courtyard elements from KiCad footprint files

  A shallow embedding of [src/strip.py] and the properties of its
  line scanner.

  Python [str] values are modelled as lists of characters.  A character
  is a code point in the range U+0000..U+00FF, carried by [ascii]; the
  two character classes the regular expressions use, [\s] and [\w], are
  the tables of Python's [re] module on that range.  Python integers are
  [Z], list indices and lengths are [nat]. *)

From Stdlib Require Import ZArith Ascii String Lia.
From stdpp Require Import list gmap strings.

Local Open Scope Z_scope.

(** ** Strings *)

Module Str.

Abbreviation str := (list ascii).

(** A string literal of the source, as a list of characters. *)
Definition lit (s : string) : str := list_ascii_of_string s.

Definition newline : ascii := ascii_of_nat 10.

Definition code (c : ascii) : nat := nat_of_ascii c.

Definition between (lo hi n : nat) : bool :=
  (Nat.leb lo n && Nat.leb n hi)%bool.

(** [\s] on a [str] pattern: the characters for which [str.isspace]
    holds. On U+0000..U+00FF these are TAB..CR, FS..US, space, NEL and
    the no-break space. *)
Definition is_space (c : ascii) : bool :=
  let n := code c in
  (between 9 13 n || between 28 32 n || Nat.eqb n 133 || Nat.eqb n 160)%bool.

(** [\w] on a [str] pattern: alphanumeric characters and the underscore.
    On U+0000..U+00FF: the ASCII digits and letters, [_], and the Latin-1
    letters, superscript digits and fractions. *)
Definition is_word (c : ascii) : bool :=
  let n := code c in
  (between 48 57 n || between 65 90 n || Nat.eqb n 95 || between 97 122 n
   || Nat.eqb n 170 || between 178 179 n || Nat.eqb n 181
   || between 185 186 n || between 188 190 n || between 192 214 n
   || between 216 246 n || between 248 255 n)%bool.

(** [s.count(c)] for a one-character [c]. *)
Fixpoint count (s : str) (c : ascii) : Z :=
  match s with
  | [] => 0
  | x :: s' => (if Ascii.eqb x c then 1 else 0) + count s' c
  end.

(** [s.split('\n')]: never empty, the empty string gives one empty line. *)
Fixpoint split (s : str) : list str :=
  match s with
  | [] => [[]]
  | c :: s' =>
      if Ascii.eqb c newline then [] :: split s'
      else match split s' with
           | l :: ls => (c :: l) :: ls
           | [] => [[c]]
           end
  end.

(** ['\n'.join(ls)]. *)
Fixpoint join (ls : list str) : str :=
  match ls with
  | [] => []
  | l :: ls' =>
      match ls' with
      | [] => l
      | _ :: _ => l ++ newline :: join ls'
      end
  end.

(** [s.startswith(p)], giving the rest of [s] after [p]. *)
Fixpoint strip_prefix (p s : str) : option str :=
  match p, s with
  | [], _ => Some s
  | _ :: _, [] => None
  | a :: p', b :: s' => if Ascii.eqb a b then strip_prefix p' s' else None
  end.

(** The longest run of [\s] at the head of [s] is skipped. *)
Fixpoint skip_spaces (s : str) : str :=
  match s with
  | [] => []
  | c :: s' => if is_space c then skip_spaces s' else s
  end.

End Str.

Import Str.

(** ** The two regular expressions *)

Module Re.

(** [\b] between a previous and a next character, either of which may be
    missing at an end of the string: a boundary is where exactly one side
    is a [\w] character. *)
Definition word_char (o : option ascii) : bool :=
  match o with
  | Some c => is_word c
  | None => false
  end.

Definition word_boundary (prev next : option ascii) : bool :=
  xorb (word_char prev) (word_char next).

(** The alternation [fp_rect|fp_line|fp_poly|fp_circle|fp_arc], in the
    order the pattern lists it. *)
Definition keywords : list str :=
  [lit "fp_rect"; lit "fp_line"; lit "fp_poly"; lit "fp_circle"; lit "fp_arc"].

(** One alternative followed by [\b], tried at the head of [s]. *)
Definition keyword_at (s : str) (kw : str) : bool :=
  match strip_prefix kw s with
  | Some rest => word_boundary (last kw) (head rest)
  | None => false
  end.

(** The test [if geom_match] on the result of [re.match]: the pattern is
    an anchor, a group of white space repeated any number of times, an
    opening parenthesis, a group with the five keywords, and a word
    boundary.  The repetition is greedy and the item after it, the
    parenthesis, is not a white-space character, so giving back white
    space never helps: the match succeeds exactly when the text after the
    longest white-space prefix does. *)
Definition geom_match (line : str) : bool :=
  match strip_prefix (lit "(") (skip_spaces line) with
  | Some rest => existsb (keyword_at rest) keywords
  | None => false
  end.

Definition quote : ascii := ascii_of_nat 34.

Definition starts_with (p s : str) : bool :=
  match strip_prefix p s with
  | Some _ => true
  | None => false
  end.

(** The class [[FB]] and the rest of the quoted tag. *)
Definition layer_tag (s : str) : bool :=
  match strip_prefix [quote] s with
  | Some (x :: tag) =>
      ((Ascii.eqb x "F" || Ascii.eqb x "B")
       && starts_with (lit ".CrtYd" ++ [quote]) tag)%bool
  | _ => false
  end.

(** The pattern [layer\s+"[FB]\.CrtYd"] tried at the head of [s].  The
    white-space item needs one character at least; it is greedy and is
    followed by a quote, which is not a white-space character, so it
    takes the longest run. *)
Definition courtyard_at (s : str) : bool :=
  match strip_prefix (lit "layer") s with
  | Some (c :: rest) => (is_space c && layer_tag (skip_spaces rest))%bool
  | _ => false
  end.

(** [re.search(pattern, s)] as a truth value: the pattern is tried at
    every position of [s], the end included. *)
Fixpoint search (at_head : str -> bool) (s : str) : bool :=
  (at_head s ||
   match s with
   | [] => false
   | _ :: s' => search at_head s'
   end)%bool.

End Re.

Import Re.

(** ** has_courtyard *)

Definition has_courtyard (content : str) : bool :=
  search courtyard_at content.

(** ** strip_courtyard_from_content *)

(** [line.count('(') - line.count(')')]. *)
Definition paren_delta (line : str) : Z :=
  count line "(" - count line ")".

(** The inner [while j < len(lines) and paren_count > 0] loop.
    [following] is [lines[j:]]: it is empty exactly when [j < len(lines)]
    fails.  The result is the final [j], [element_lines] and
    [paren_count]. *)
Fixpoint collect_element (following : list str) (j : nat)
    (element_lines : list str) (paren_count : Z) : nat * list str * Z :=
  match following with
  | [] => (j, element_lines, paren_count)
  | l :: following' =>
      if 0 <? paren_count then
        collect_element following' (S j) (element_lines ++ [l])
          (paren_count + paren_delta l)
      else (j, element_lines, paren_count)
  end.

(** The variables of the outer loop. *)
Record scan_state : Type := ScanState {
  i : nat;
  result_lines : list str;
  removed_count : nat
  }.

(** One iteration of [while i < len(lines)]; [None] when the loop
    condition fails. *)
Definition scan_step (lines : list str) (st : scan_state) : option scan_state :=
  match drop (i st) lines with
  | [] => None
  | line :: following =>
      if geom_match line then
        let '(j, element_lines, _) :=
          collect_element following (S (i st)) [line] (paren_delta line) in
        let element_content := join element_lines in
        if search courtyard_at element_content then
          Some (ScanState j (result_lines st) (S (removed_count st)))
        else
          Some (ScanState j (result_lines st ++ element_lines) (removed_count st))
      else
        Some (ScanState (S (i st)) (result_lines st ++ [line]) (removed_count st))
  end.

(** The outer loop, run for [fuel] iterations at most. *)
Fixpoint scan_loop (fuel : nat) (lines : list str) (st : scan_state) : scan_state :=
  match fuel with
  | O => st
  | S fuel' =>
      match scan_step lines st with
      | None => st
      | Some st' => scan_loop fuel' lines st'
      end
  end.

(** The state at the end of the loop: every iteration moves [i] forward,
    so [len(lines)] iterations are enough ([scan_exits]). *)
Definition scan (lines : list str) : scan_state :=
  scan_loop (length lines) lines (ScanState 0 [] 0).

Definition strip_courtyard_from_content (content : str) : str :=
  join (result_lines (scan (split content))).

(** ** process_file and the loop of main over the files *)

(** What the script needs from the platform: the file system it reads and
    writes, the paths ([pathlib.Path]) and their [name], and what a read or
    a write can raise.  [exception] stands for the instances of
    [BaseException]; [is_Exception e] is [isinstance(e, Exception)], true of
    [OSError] or [UnicodeError], false of [KeyboardInterrupt] and
    [SystemExit].  A write can fail after it has changed the file system,
    so it returns a world either way. *)
Inductive result (E A : Type) : Type :=
| Ok (a : A)
| Raise (e : E).

Arguments Ok {E A} a.
Arguments Raise {E A} e.

Class Platform : Type := {
  world : Type;
  exception : Type;
  is_Exception : exception -> bool;
  path : Type;
  path_name : path -> str;
  read_text : world -> path -> result exception str;
  write_text : world -> path -> str -> world * result exception unit
}.

Section Script.

Context {P : Platform}.

(** The calls of [logger], with the values their messages are built from. *)
Inductive log_record : Type :=
| InfoRemoved (removed_count : nat)
| InfoProcessing (name : str)
| WarningNoCourtyard (name : str)
| InfoCreated (name : str)
| InfoCopied (name : str)
| ErrorProcessing (input_path : path) (e : exception).

(** The state the script acts on: the files and what was logged so far. *)
Record machine : Type := Machine {
  fs : world;
  logged : list log_record
}.

(** Statements that change the state and return a value or raise. *)
Definition action (A : Type) : Type := machine -> machine * result exception A.

Definition ret {A : Type} (a : A) : action A := fun m => (m, Ok a).

Definition bind {A B : Type} (c : action A) (k : A -> action B) : action B :=
  fun m =>
    match c m with
    | (m', Ok a) => k a m'
    | (m', Raise e) => (m', Raise e)
    end.

(** [try: body except Exception as e: handler]: the handler runs on the
    instances of [Exception], anything else goes on to the caller. *)
Definition try_except {A : Type} (body : action A) (handler : exception -> action A)
    : action A :=
  fun m =>
    match body m with
    | (m', Ok a) => (m', Ok a)
    | (m', Raise e) => if is_Exception e then handler e m' else (m', Raise e)
    end.

Definition log (r : log_record) : action unit :=
  fun m => (Machine (fs m) (logged m ++ [r]), Ok tt).

Definition read_file (p : path) : action str :=
  fun m => (m, read_text (fs m) p).

Definition write_file (p : path) (content : str) : action unit :=
  fun m => let '(w, r) := write_text (fs m) p content in (Machine w (logged m), r).

(** [strip_courtyard_from_content] with the message it logs before it
    returns. *)
Definition strip_courtyard_logged (content : str) : action str :=
  let st := scan (split content) in
  bind (if Nat.ltb 0 (removed_count st) then log (InfoRemoved (removed_count st))
        else ret tt)
       (fun _ => ret (join (result_lines st))).

Definition process_file (input_path output_path : path)
    (strip_courtyard strip_designator : bool) : action bool :=
  try_except
    (bind (read_file input_path) (fun content =>
     bind (if strip_courtyard then
             if has_courtyard content then
               bind (log (InfoProcessing (path_name input_path))) (fun _ =>
               bind (strip_courtyard_logged content) (fun processed_content =>
               ret (processed_content, true)))
             else
               bind (log (WarningNoCourtyard (path_name input_path))) (fun _ =>
               ret (content, false))
           else ret (content, false))
          (fun '(processed_content, modified) =>
     bind (write_file output_path processed_content) (fun _ =>
     bind (log (if modified : bool then InfoCreated (path_name output_path)
                else InfoCopied (path_name output_path))) (fun _ =>
     ret true)))))
    (fun e =>
     bind (log (ErrorProcessing input_path e)) (fun _ =>
     ret false)).

(** The loop of [main] over the sorted input files for one configuration;
    [output_file] stands for the computation of the output path.  The
    result is [success_count]. *)
Fixpoint process_files (output_file : path -> path) (kicad_files : list path)
    (strip_courtyard strip_designator : bool) (success_count : nat) : action nat :=
  match kicad_files with
  | [] => ret success_count
  | input_file :: kicad_files' =>
      bind (process_file input_file (output_file input_file)
              strip_courtyard strip_designator) (fun ok =>
      process_files output_file kicad_files' strip_courtyard strip_designator
        (if ok : bool then S success_count else success_count))
  end.

End Script.

(** ** Vocabulary of the statements *)

(** A line of [split] holds no newline. *)
Definition one_line (l : str) : Prop := ~ In newline l.

Definition spaces (ws : str) : Prop := Forall (fun c => is_space c = true) ws.

(** What [skip_spaces] leaves does not start with white space. *)
Definition no_space_head (r : str) : Prop :=
  match r with
  | [] => True
  | c :: _ => is_space c = false
  end.

(** The strings the courtyard pattern matches at their head. *)
Definition courtyard_text (s : str) : Prop :=
  exists (c : ascii) (ws : str) (x : ascii) (rest : str),
    is_space c = true /\ spaces ws /\ (x = "F"%char \/ x = "B"%char) /\
    s = lit "layer" ++ c :: ws ++ quote :: x :: lit ".CrtYd" ++ quote :: rest.

(** The value of [paren_count] after the lines [ls] of an element. *)
Fixpoint depth (ls : list str) : Z :=
  match ls with
  | [] => 0
  | l :: ls' => paren_delta l + depth ls'
  end.

(** How many of the lines [following] the inner loop takes when it starts
    with [paren_count]. *)
Fixpoint extent (paren_count : Z) (following : list str) : nat :=
  match following with
  | [] => O
  | l :: following' =>
      if 0 <? paren_count then S (extent (paren_count + paren_delta l) following')
      else O
  end.

(** What one iteration of the outer loop covers: a line that opens no
    element, or an element with all its lines. *)
Inductive chunk : Type :=
| Plain (line : str)
| Element (element_lines : list str).

Definition chunk_lines (c : chunk) : list str :=
  match c with
  | Plain line => [line]
  | Element element_lines => element_lines
  end.

(** The test that discards an element. *)
Definition discarded (c : chunk) : bool :=
  match c with
  | Plain _ => false
  | Element element_lines => search courtyard_at (join element_lines)
  end.

Definition kept_lines (c : chunk) : list str :=
  if discarded c then [] else chunk_lines c.

(** The chunks of [lines], front to back, for [fuel] chunks at most. *)
Fixpoint chunks_upto (fuel : nat) (lines : list str) : list chunk :=
  match fuel, lines with
  | O, _ => []
  | _, [] => []
  | S fuel', line :: following =>
      if geom_match line then
        let n := extent (paren_delta line) following in
        Element (line :: take n following) :: chunks_upto fuel' (drop n following)
      else Plain line :: chunks_upto fuel' following
  end.

Definition chunks (lines : list str) : list chunk :=
  chunks_upto (length lines) lines.

Definition all_lines (cs : list chunk) : list str := concat (map chunk_lines cs).

Definition all_kept (cs : list chunk) : list str := concat (map kept_lines cs).

Definition count_discarded (cs : list chunk) : nat :=
  length (List.filter discarded cs).

Definition plain_lines (cs : list chunk) : list str :=
  concat (map (fun c => match c with Plain line => [line] | Element _ => [] end) cs).

(** The strings [geom_match] accepts: white space, an opening parenthesis,
    a keyword, and then the end of the line or a character that is not a
    word character. *)
Definition geom_text (line : str) : Prop :=
  exists (ws kw tail : str),
    spaces ws /\ In kw keywords /\ word_char (head tail) = false /\
    line = ws ++ lit "(" ++ kw ++ tail.

(** The state of the outer loop after [k] iterations. *)
Definition after (k : nat) (lines : list str) : scan_state :=
  scan_loop k lines (ScanState 0 [] 0).

(** The lines an element chunk or a plain chunk leaves in the output, with
    the test written out. *)
Definition output_of (c : chunk) : list str :=
  match c with
  | Plain line => [line]
  | Element element_lines =>
      if has_courtyard (join element_lines) then [] else element_lines
  end.

(** A chunk as the loop forms it: a plain chunk is a line the pattern
    rejects, an element starts with a line the pattern accepts. *)
Definition scanned (c : chunk) : Prop :=
  match c with
  | Plain line => geom_match line = false
  | Element element_lines =>
      exists line rest, element_lines = line :: rest /\ geom_match line = true
  end.

(** A text that holds a courtyard layer tag somewhere: the word [layer],
    white space, and the quoted tag. *)
Definition tagged (text : str) : Prop :=
  exists before t : str, text = before ++ t /\ courtyard_text t.

(** What the function owes a chunk, in the words of the patterns: a plain
    chunk is a line that is no opening of an element, and it goes to the
    output; an element starts with a line that is one, and it leaves
    nothing when its joined text is tagged and all its lines when it is
    not. *)
Definition judged (c : chunk) (out : list str) : Prop :=
  match c with
  | Plain line => ~ geom_text line /\ out = [line]
  | Element element_lines =>
      (exists line rest, element_lines = line :: rest /\ geom_text line)
      /\ ((tagged (join element_lines) /\ out = [])
          \/ (~ tagged (join element_lines) /\ out = element_lines))
  end.

(** What [process_file] hands to the write. *)
Definition processed (strip_courtyard : bool) (content : str) : str :=
  if (strip_courtyard && has_courtyard content)%bool
  then strip_courtyard_from_content content
  else content.

(** The record that closes the handling of one file. *)
Definition is_success {P : Platform} (r : log_record) : bool :=
  match r with
  | InfoCreated _ | InfoCopied _ => true
  | _ => false
  end.

Definition is_failure {P : Platform} (r : log_record) : bool :=
  match r with
  | ErrorProcessing _ _ => true
  | _ => false
  end.

(** Where [process_file] ends when the read or the write raised [e], with
    the files [w] and the records [before]: the handler logs and returns
    [False] on an instance of [Exception], anything else leaves the
    function. *)
Definition on_raise {P : Platform} (input_path : path) (w : world)
    (before : list log_record) (e : exception) : machine * result exception bool :=
  if is_Exception e
  then (Machine w (before ++ [ErrorProcessing input_path e]), Ok false)
  else (Machine w before, Raise e).

(** What [process_file] logs between the read and the write. *)
Definition progress_log {P : Platform} (strip_courtyard : bool) (input_path : path)
    (content : str) : list log_record :=
  if strip_courtyard then
    if has_courtyard content then
      InfoProcessing (path_name input_path) ::
      (let n := removed_count (scan (split content)) in
       if Nat.ltb 0 n then [InfoRemoved n] else [])
    else [WarningNoCourtyard (path_name input_path)]
  else [].

(** ** A footprint and a file system to run the definitions on *)

Definition quoted (s : string) : str := quote :: lit s ++ [quote].

Definition demo_lines : list str :=
  [ lit "(footprint demo";
    lit "  (fp_line (start 0 0) (end 1 1)";
    lit "    (layer " ++ quoted "F.CrtYd" ++ lit "))";
    lit "  (fp_line (start 0 0) (end 1 1) (layer " ++ quoted "F.SilkS" ++ lit "))";
    lit ")" ].

Definition demo : str := join demo_lines.

(** An element that never closes, with a courtyard tag and without. *)
Definition open_lines : list str :=
  [ lit "(footprint demo";
    lit "  (fp_poly (pts";
    lit "    (xy 0 0) (layer " ++ quoted "B.CrtYd" ++ lit ")" ].

Definition open_plain_lines : list str :=
  [ lit "(footprint demo";
    lit "  (fp_poly (pts";
    lit "    (xy 0 0) (layer " ++ quoted "F.Fab" ++ lit ")" ].

(** An element opener on a line inside another element. *)
Definition nested_lines : list str :=
  [ lit "(fp_poly (pts";
    lit "  (fp_line (start 0 0))";
    lit "  ) (layer " ++ quoted "F.CrtYd" ++ lit "))";
    lit "(fp_line (start 0 0))" ].

Inductive raised : Type :=
| FileNotFoundError
| PermissionError
| KeyboardInterrupt.

Definition raised_is_Exception (e : raised) : bool :=
  match e with
  | FileNotFoundError | PermissionError => true
  | KeyboardInterrupt => false
  end.

(** Files by name; reading a missing file fails, and so does writing to
    the empty name. *)
Definition demo_platform : Platform := {|
  world := gmap string str;
  exception := raised;
  is_Exception := raised_is_Exception;
  path := string;
  path_name := lit;
  read_text := fun w p =>
    match w !! p with
    | Some content => Ok content
    | None => Raise FileNotFoundError
    end;
  write_text := fun w p content =>
    if String.eqb p EmptyString then (w, Raise PermissionError)
    else (<[p := content]> w, Ok tt)
|}.

(** The same files, with the user interrupting every read. *)
Definition interrupted_platform : Platform := {|
  world := gmap string str;
  exception := raised;
  is_Exception := raised_is_Exception;
  path := string;
  path_name := lit;
  read_text := fun _ _ => Raise KeyboardInterrupt;
  write_text := fun w p content => (<[p := content]> w, Ok tt)
|}.

Definition plain_machine : @machine demo_platform :=
  @Machine demo_platform
    (<["a.kicad_mod"%string := lit "(footprint demo)"]> (empty : gmap string str)) [].

Definition interrupted_machine : @machine interrupted_platform :=
  @Machine interrupted_platform
    (<["a.kicad_mod"%string := lit "(footprint demo)"]> (empty : gmap string str)) [].

Definition demo_machine : @machine demo_platform :=
  @Machine demo_platform
    (<["a.kicad_mod"%string := demo]> (empty : gmap string str)) [].

(** ** main *)

(** What [main] needs besides: the directory of the script, the path
    operations [p / name] and [p.stem], [p.exists()], [list(p.glob(pattern))],
    [p.mkdir(exist_ok=True)], which may raise, and the order [p < q] of
    paths that [sorted] uses. *)
Class Directory (P : Platform) : Type := {
  script_dir : path;
  child : path -> str -> path;
  stem : path -> str;
  path_exists : world -> path -> bool;
  glob : world -> path -> str -> list path;
  mkdir : world -> path -> world * result exception unit;
  path_lt : path -> path -> bool
}.

Section Main.

Context {P : Platform} {D : Directory P}.

(** [sorted(kicad_files)]: a stable sort by [<].  An element goes past the
    elements that are less than it and stops before the first that is not,
    so it stays before the later elements it ties with; on the order of
    paths every stable sort returns this list. *)
Fixpoint insert_sorted (x : path) (s : list path) : list path :=
  match s with
  | [] => [x]
  | y :: s' => if path_lt y x then y :: insert_sorted x s' else x :: s
  end.

Fixpoint sorted (l : list path) : list path :=
  match l with
  | [] => []
  | x :: l' => insert_sorted x (sorted l')
  end.

(** The calls of [logger] in [main], and the records of the calls of
    [process_file] between them. *)
Inductive main_record : Type :=
| ErrorInputDirNotFound (input_dir : path)
| WarningNoFiles (input_dir : path)
| InfoFound (n : nat)
| InfoRuleAfterNewline
| InfoRule
| InfoProcessingFilesFor (output_dir_name : str)
| InfoStripCourtyards (strip_courtyard : bool)
| InfoProcessingComplete (output_dir_name : str) (success_count total : nat)
| InfoAllComplete
| FromProcessFile (r : log_record).

(** How [main] ends: it returns, it calls [sys.exit(code)], or an
    exception it does not handle ends it. *)
Inductive main_exit : Type :=
| Returned
| SysExit (code : Z)
| Uncaught (e : exception).

(** [output_dir / f"{base_name}{suffix}.kicad_mod"]. *)
Definition output_file_for (output_dir : path) (suffix : str) (input_file : path)
    : path :=
  child output_dir (stem input_file ++ suffix ++ lit ".kicad_mod").

(** The list [configs]: suffix, output directory name, [strip_courtyard],
    [strip_designator]. *)
Definition configs : list (str * str * bool * bool) :=
  [(lit "-nofp", lit "APRLPrints-nofp.pretty", true, false)].

(** The body of the loop over [configs]; the result is [overall_success]. *)
Definition run_config (kicad_files : list path) (config : str * str * bool * bool)
    (w : world) (lg : list main_record) (overall_success : bool)
    : world * list main_record * result exception bool :=
  let '(suffix, output_dir_name, strip_courtyard, strip_designator) := config in
  let output_dir := child script_dir output_dir_name in
  match mkdir w output_dir with
  | (w1, Raise e) => (w1, lg, Raise e)
  | (w1, Ok _) =>
      let lg1 :=
        lg ++ [InfoRuleAfterNewline; InfoProcessingFilesFor output_dir_name;
               InfoStripCourtyards strip_courtyard; InfoRule] in
      match process_files (output_file_for output_dir suffix) (sorted kicad_files)
              strip_courtyard strip_designator 0 (Machine w1 []) with
      | (m, Raise e) => (fs m, lg1 ++ map FromProcessFile (logged m), Raise e)
      | (m, Ok success_count) =>
          (fs m,
           lg1 ++ map FromProcessFile (logged m) ++
           [InfoProcessingComplete output_dir_name success_count
              (length kicad_files)],
           Ok (if Nat.ltb success_count (length kicad_files) then false
               else overall_success))
      end
  end.

Fixpoint run_configs (kicad_files : list path)
    (todo : list (str * str * bool * bool)) (w : world) (lg : list main_record)
    (overall_success : bool) : world * list main_record * result exception bool :=
  match todo with
  | [] => (w, lg, Ok overall_success)
  | config :: todo' =>
      match run_config kicad_files config w lg overall_success with
      | (w', lg', Ok overall_success') =>
          run_configs kicad_files todo' w' lg' overall_success'
      | (w', lg', Raise e) => (w', lg', Raise e)
      end
  end.

(** [main], from the files [w]: the files it leaves, what it logged, and
    how it ended. *)
Definition main (w : world) : world * list main_record * main_exit :=
  let input_dir := child script_dir (lit "APRLPrints.pretty") in
  if negb (path_exists w input_dir) then
    (w, [ErrorInputDirNotFound input_dir], SysExit 1)
  else
    let kicad_files := glob w input_dir (lit "*.kicad_mod") in
    match kicad_files with
    | [] => (w, [WarningNoFiles input_dir], SysExit 0)
    | _ :: _ =>
        match run_configs kicad_files configs w
                [InfoFound (length kicad_files)] true with
        | (w', lg, Raise e) => (w', lg, Uncaught e)
        | (w', lg, Ok overall_success) =>
            let lg' := lg ++ [InfoRuleAfterNewline; InfoAllComplete; InfoRule] in
            if overall_success then (w', lg', Returned)
            else (w', lg', SysExit 1)
        end
    end.

(** The records of the calls of [process_file] in the log of [main]. *)
Fixpoint file_records (lg : list main_record) : list log_record :=
  match lg with
  | [] => []
  | FromProcessFile r :: lg' => r :: file_records lg'
  | _ :: lg' => file_records lg'
  end.

End Main.

(** A directory for the demonstration files: one input file that is there
    and one the listing shows but the read does not find; [mkdir] works. *)
Definition slash (p : string) (name : str) : string :=
  String.append p (String.append "/" (string_of_list_ascii name)).

Definition stem_of (p : string) : str :=
  lit (String.substring 0 (String.length p - 10) p).

Definition demo_listing : list string :=
  ["missing.kicad_mod"%string; "a.kicad_mod"%string].

Definition demo_directory : Directory demo_platform :=
  @Build_Directory demo_platform EmptyString slash stem_of
    (fun _ _ => true) (fun _ _ _ => demo_listing)
    (fun w _ => (w, Ok tt)) String.ltb.

(** The same, where the output directory cannot be made. *)
Definition readonly_directory : Directory demo_platform :=
  @Build_Directory demo_platform EmptyString slash stem_of
    (fun _ _ => true) (fun _ _ _ => demo_listing)
    (fun w _ => (w, Raise PermissionError)) String.ltb.

(** ** Vocabulary of the further properties *)

(** The characters of the lines [ls], each line counted with one newline. *)
Fixpoint weight (ls : list str) : nat :=
  match ls with
  | [] => O
  | l :: ls' => (S (length l) + weight ls')%nat
  end.

(** Lines none of which opens an element. *)
Definition no_opener (ls : list str) : Prop :=
  Forall (fun l => geom_match l = false) ls.

(** A line outside every element that carries a courtyard tag. *)
Definition tagged_text_line : str :=
  lit "  (fp_text user x (layer " ++ quoted "F.CrtYd" ++ lit "))".


(** * Properties *)

(** ** The definitions on small inputs *)

Section Runs.

Example split_two_lines :
  split (lit "a" ++ newline :: lit "b") = [lit "a"; lit "b"].
Proof. reflexivity. Qed.

Example split_empty : split [] = [[]].
Proof. reflexivity. Qed.

Example split_trailing_newline : split (lit "a" ++ [newline]) = [lit "a"; []].
Proof. reflexivity. Qed.

Example geom_match_indented : geom_match (lit "  (fp_line (start 0 0)") = true.
Proof. reflexivity. Qed.

Example geom_match_end_of_line : geom_match (lit "(fp_arc") = true.
Proof. reflexivity. Qed.

Example geom_match_other_keyword : geom_match (lit "(fp_text user") = false.
Proof. reflexivity. Qed.

Example geom_match_longer_word : geom_match (lit "(fp_lines 1)") = false.
Proof. reflexivity. Qed.

Example geom_match_mid_line : geom_match (lit "(pad 1) (fp_line (start 0 0))") = false.
Proof. reflexivity. Qed.

Example has_courtyard_across_lines :
  has_courtyard (lit "(layer" ++ newline :: lit "  " ++ quoted "B.CrtYd" ++ lit ")") = true.
Proof. reflexivity. Qed.

Example has_courtyard_other_layer :
  has_courtyard (lit "(layer " ++ quoted "F.SilkS" ++ lit ")") = false.
Proof. reflexivity. Qed.

Example paren_delta_in_quotes : paren_delta (lit "(descr " ++ quoted "((" ++ lit ")") = 2.
Proof. reflexivity. Qed.

Example scan_demo :
  scan demo_lines =
    ScanState 5
      [ lit "(footprint demo";
        lit "  (fp_line (start 0 0) (end 1 1) (layer " ++ quoted "F.SilkS" ++ lit "))";
        lit ")" ]
      1.
Proof. reflexivity. Qed.

Example scan_open : result_lines (scan open_lines) = [lit "(footprint demo"].
Proof. reflexivity. Qed.

Example scan_open_plain : result_lines (scan open_plain_lines) = open_plain_lines.
Proof. reflexivity. Qed.

Example chunks_nested :
  chunks nested_lines =
    [ Element (take 3 nested_lines); Element (drop 3 nested_lines) ].
Proof. reflexivity. Qed.

Example scan_nested :
  result_lines (scan nested_lines) = [lit "(fp_line (start 0 0))"].
Proof. reflexivity. Qed.

Example process_file_missing_input :
  process_file (P := demo_platform) "missing.kicad_mod"%string "b.kicad_mod"%string
    true false demo_machine
  = (@Machine demo_platform (fs demo_machine)
       [@ErrorProcessing demo_platform "missing.kicad_mod"%string FileNotFoundError],
     Ok false).
Proof. reflexivity. Qed.

Example process_files_goes_on :
  snd (process_files (P := demo_platform) (fun p => String.append p "-nofp")
         ["missing.kicad_mod"%string; "a.kicad_mod"%string] true false 0
         demo_machine)
  = Ok 1%nat.
Proof. vm_compute. reflexivity. Qed.

End Runs.

(** ** Splitting and joining lines *)

Section SplitJoin.

Lemma split_not_nil (s : str) : split s <> [].
Proof.
  induction s as [|c s IH]; simpl; [discriminate|].
  destruct (Ascii.eqb c newline); [discriminate|].
  destruct (split s); discriminate.
Qed.

Lemma join_cons_cons (l l' : str) (ls : list str) :
  join (l :: l' :: ls) = l ++ newline :: join (l' :: ls).
Proof. reflexivity. Qed.

Lemma join_split (s : str) : join (split s) = s.
Proof.
  induction s as [|c s IH]; cbn [split]; [reflexivity|].
  pose proof (split_not_nil s) as Hne.
  destruct (Ascii.eqb_spec c newline) as [->|Hc];
    destruct (split s) as [|l ls] eqn:E; try congruence.
  - rewrite join_cons_cons, IH. reflexivity.
  - destruct ls as [|l' ls].
    + cbn [join] in *. now rewrite IH.
    + rewrite join_cons_cons in *. cbn [app]. now rewrite IH.
Qed.

Lemma split_one_line (s : str) : Forall one_line (split s).
Proof.
  induction s as [|c s IH]; simpl.
  - constructor; [intros []|constructor].
  - destruct (Ascii.eqb_spec c newline) as [->|Hc].
    + constructor; [intros []|exact IH].
    + destruct (split s) as [|l ls]; [constructor; [|constructor]|].
      * intros [H|[]]. now subst.
      * inversion IH as [|? ? Hl Hls]; subst.
        constructor; [|exact Hls].
        intros [H|H]; [now subst|now apply Hl].
Qed.

Lemma split_one_line_eq (l : str) : one_line l -> split l = [l].
Proof.
  induction l as [|c l IH]; intros Hl; [reflexivity|].
  simpl. destruct (Ascii.eqb_spec c newline) as [->|Hc].
  - exfalso. apply Hl. now left.
  - rewrite IH; [reflexivity|]. intros H. apply Hl. now right.
Qed.

Lemma split_app_newline (l s : str) :
  one_line l -> split (l ++ newline :: s) = l :: split s.
Proof.
  induction l as [|c l IH]; intros Hl; simpl.
  - reflexivity.
  - destruct (Ascii.eqb_spec c newline) as [->|Hc].
    + exfalso. apply Hl. now left.
    + rewrite IH; [reflexivity|]. intros H. apply Hl. now right.
Qed.

Lemma split_join (ls : list str) :
  ls <> [] -> Forall one_line ls -> split (join ls) = ls.
Proof.
  induction ls as [|l ls IH]; intros Hne Hall; [congruence|].
  inversion Hall as [|? ? Hl Hls]; subst.
  destruct ls as [|l' ls].
  - simpl. now apply split_one_line_eq.
  - rewrite join_cons_cons, split_app_newline by assumption.
    now rewrite IH.
Qed.

Lemma join_app (ls1 ls2 : list str) :
  ls1 <> [] -> ls2 <> [] ->
  join (ls1 ++ ls2) = join ls1 ++ newline :: join ls2.
Proof.
  induction ls1 as [|l ls1 IH]; intros H1 H2; [congruence|].
  destruct ls1 as [|l' ls1].
  - simpl. destruct ls2; [congruence|reflexivity].
  - change ((l :: l' :: ls1) ++ ls2) with (l :: (l' :: ls1) ++ ls2).
    change ((l' :: ls1) ++ ls2) with (l' :: ls1 ++ ls2) at 1.
    rewrite !join_cons_cons.
    change (l' :: ls1 ++ ls2) with ((l' :: ls1) ++ ls2).
    rewrite IH by (assumption || discriminate).
    now rewrite <- app_assoc.
Qed.

End SplitJoin.

(** ** The regular expressions, as sets of strings *)

Section Patterns.

Lemma strip_prefix_Some (p s r : str) :
  strip_prefix p s = Some r <-> s = p ++ r.
Proof.
  revert s. induction p as [|a p IH]; intros s; cbn [strip_prefix app].
  - split; congruence.
  - destruct s as [|b s]; [split; discriminate|].
    destruct (Ascii.eqb_spec a b) as [->|Hab].
    + rewrite IH. split; congruence.
    + split; [discriminate|]. intros H. congruence.
Qed.

Lemma strip_prefix_app (p r : str) : strip_prefix p (p ++ r) = Some r.
Proof. now apply strip_prefix_Some. Qed.

Lemma starts_with_true (p s : str) :
  starts_with p s = true <-> exists r, s = p ++ r.
Proof.
  unfold starts_with. destruct (strip_prefix p s) as [r|] eqn:E.
  - apply strip_prefix_Some in E. split; eauto.
  - split; [discriminate|]. intros [r ->].
    now rewrite strip_prefix_app in E.
Qed.

Lemma skip_spaces_split (s : str) :
  exists ws, s = ws ++ skip_spaces s /\ spaces ws /\ no_space_head (skip_spaces s).
Proof.
  induction s as [|c s (ws & Hs & Hws & Hr)]; cbn [skip_spaces].
  - exists []. repeat split. constructor.
  - destruct (is_space c) eqn:Hc.
    + exists (c :: ws). cbn [app]. rewrite <- Hs. repeat split; trivial.
      now constructor.
    + exists []. repeat split; [constructor|exact Hc].
Qed.

Lemma skip_spaces_app (ws r : str) :
  spaces ws -> no_space_head r -> skip_spaces (ws ++ r) = r.
Proof.
  intros Hws Hr. induction Hws as [|c ws Hc _ IH]; cbn [app skip_spaces].
  - destruct r as [|c r]; [reflexivity|]. cbn in Hr. cbn [skip_spaces].
    now rewrite Hr.
  - now rewrite Hc.
Qed.

Lemma courtyard_at_spec (s : str) :
  courtyard_at s = true <-> courtyard_text s.
Proof.
  unfold courtyard_at, courtyard_text. split.
  - destruct (strip_prefix (lit "layer") s) as [[|c rest]|] eqn:E;
      try discriminate.
    apply strip_prefix_Some in E. intros H.
    apply andb_prop in H as [Hc Htag].
    destruct (skip_spaces_split rest) as (ws & Hrest & Hws & _).
    unfold layer_tag in Htag.
    destruct (strip_prefix [quote] (skip_spaces rest)) as [[|x tag]|] eqn:E2;
      try discriminate.
    apply strip_prefix_Some in E2.
    apply andb_prop in Htag as [Hx Ht].
    apply starts_with_true in Ht as [r ->].
    exists c, ws, x, r. repeat split; trivial.
    + apply orb_prop in Hx as [Hx|Hx]; apply Ascii.eqb_eq in Hx; tauto.
    + rewrite E, Hrest, E2. cbn [app]. now rewrite <- app_assoc.
  - intros (c & ws & x & rest & Hc & Hws & Hx & ->).
    rewrite strip_prefix_app, Hc. cbn [andb].
    rewrite skip_spaces_app; [|exact Hws|reflexivity].
    unfold layer_tag. cbn [strip_prefix]. rewrite Ascii.eqb_refl.
    rewrite (proj2 (starts_with_true _ _)) by eauto.
    destruct Hx as [->| ->]; reflexivity.
Qed.

Lemma courtyard_at_app (s t : str) :
  courtyard_at s = true -> courtyard_at (s ++ t) = true.
Proof.
  rewrite !courtyard_at_spec.
  intros (c & ws & x & rest & Hc & Hws & Hx & ->).
  exists c, ws, x, (rest ++ t). repeat split; trivial.
  unfold lit. cbn [list_ascii_of_string app]. do 6 f_equal.
  rewrite <- app_assoc. reflexivity.
Qed.

Lemma search_true (f : str -> bool) (s : str) :
  search f s = true <-> exists p r, s = p ++ r /\ f r = true.
Proof.
  induction s as [|c s IH]; cbn [search].
  - rewrite orb_false_r. split.
    + intros H. now exists [], [].
    + intros (p & r & E & H). symmetry in E.
      apply app_eq_nil in E as [_ ->]. exact H.
  - rewrite orb_true_iff, IH. split.
    + intros [H|(p & r & -> & H)]; [now exists [], (c :: s)|].
      now exists (c :: p), r.
    + intros ([|c' p] & r & E & H); cbn [app] in E.
      * left. now subst.
      * right. injection E as -> ->. eauto.
Qed.

(** A match inside a part of a text is a match inside the text. *)
Lemma search_courtyard_within (before s after : str) :
  search courtyard_at s = true ->
  search courtyard_at (before ++ s ++ after) = true.
Proof.
  rewrite !search_true. intros (p & r & -> & H).
  exists (before ++ p), (r ++ after). split.
  - now rewrite <- !app_assoc.
  - now apply courtyard_at_app.
Qed.

End Patterns.

(** ** The inner loop *)

Section InnerLoop.

Lemma collect_element_extent (following : list str) (j : nat)
    (element_lines : list str) (paren_count : Z) :
  collect_element following j element_lines paren_count =
    ((j + extent paren_count following)%nat,
     element_lines ++ take (extent paren_count following) following,
     paren_count + depth (take (extent paren_count following) following)).
Proof.
  revert j element_lines paren_count.
  induction following as [|l following IH]; intros j el pc;
    cbn [collect_element extent].
  - cbn. now rewrite Nat.add_0_r, app_nil_r, Z.add_0_r.
  - destruct (0 <? pc) eqn:Hpc.
    + rewrite IH. cbn [take depth]. rewrite <- app_assoc. cbn [app].
      f_equal; [f_equal; lia|lia].
    + cbn. now rewrite Nat.add_0_r, app_nil_r, Z.add_0_r.
Qed.

Lemma extent_le (pc : Z) (following : list str) :
  (extent pc following <= length following)%nat.
Proof.
  revert pc. induction following as [|l following IH]; intros pc;
    cbn [extent length]; [lia|].
  destruct (0 <? pc); [specialize (IH (pc + paren_delta l))|]; lia.
Qed.

(** The counter is positive before each line the loop takes. *)
Lemma extent_positive (pc : Z) (following : list str) (m : nat) :
  (m < extent pc following)%nat -> 0 < pc + depth (take m following).
Proof.
  revert pc m. induction following as [|l following IH]; intros pc m;
    cbn [extent]; [lia|].
  destruct (0 <? pc) eqn:Hpc; [|lia].
  apply Z.ltb_lt in Hpc. destruct m as [|m]; cbn [take depth]; [lia|].
  intros Hm. specialize (IH (pc + paren_delta l) m). lia.
Qed.

(** The loop stops at the end of the lines or on a counter that is not
    positive. *)
Lemma extent_stop (pc : Z) (following : list str) :
  extent pc following = length following \/
  pc + depth (take (extent pc following) following) <= 0.
Proof.
  revert pc. induction following as [|l following IH]; intros pc;
    cbn [extent]; [now left|].
  destruct (0 <? pc) eqn:Hpc.
  - destruct (IH (pc + paren_delta l)) as [H|H].
    + left. cbn [length]. lia.
    + right. cbn [take depth]. lia.
  - right. apply Z.ltb_ge in Hpc. cbn [take depth]. lia.
Qed.

(** The lines taken depend on nothing after them, unless the loop ran
    into the end of the list. *)
Lemma extent_app (pc : Z) (following more : list str) :
  (extent pc following < length following)%nat ->
  extent pc (following ++ more) = extent pc following.
Proof.
  revert pc. induction following as [|l following IH]; intros pc;
    cbn [extent length app]; [lia|].
  destruct (0 <? pc); [|reflexivity].
  intros H. rewrite IH; [reflexivity|lia].
Qed.

Lemma extent_take (pc : Z) (following : list str) :
  extent pc (take (extent pc following) following) = extent pc following.
Proof.
  revert pc. induction following as [|l following IH]; intros pc;
    cbn [extent take]; [reflexivity|].
  destruct (0 <? pc) eqn:Hpc; cbn [take extent]; [|reflexivity].
  now rewrite Hpc, IH.
Qed.

End InnerLoop.

(** ** The outer loop, chunk by chunk *)

Section OuterLoop.

Lemma chunks_upto_enough (fuel1 fuel2 : nat) (lines : list str) :
  (length lines <= fuel1)%nat -> (length lines <= fuel2)%nat ->
  chunks_upto fuel1 lines = chunks_upto fuel2 lines.
Proof.
  revert fuel2 lines. induction fuel1 as [|fuel1 IH]; intros fuel2 lines H1 H2.
  - destruct lines; [|cbn in H1; lia]. now destruct fuel2.
  - destruct lines as [|line following]; [now destruct fuel2|].
    destruct fuel2 as [|fuel2]; [cbn in H2; lia|].
    cbn [length] in H1, H2. cbn [chunks_upto].
    destruct (geom_match line).
    + f_equal. apply IH; rewrite length_drop; lia.
    + f_equal. apply IH; lia.
Qed.

Lemma chunks_nil : chunks [] = [].
Proof. reflexivity. Qed.

Lemma chunks_cons (line : str) (following : list str) :
  chunks (line :: following) =
    if geom_match line then
      Element (line :: take (extent (paren_delta line) following) following)
        :: chunks (drop (extent (paren_delta line) following) following)
    else Plain line :: chunks following.
Proof.
  unfold chunks. cbn [length chunks_upto]. destruct (geom_match line).
  - f_equal. apply chunks_upto_enough; rewrite length_drop; lia.
  - reflexivity.
Qed.

(** Induction along the chunks of a list of lines. *)
Lemma chunk_induction (Q : list str -> Prop) :
  Q [] ->
  (forall line following,
     geom_match line = false -> Q following -> Q (line :: following)) ->
  (forall line following,
     geom_match line = true ->
     Q (drop (extent (paren_delta line) following) following) ->
     Q (line :: following)) ->
  forall lines, Q lines.
Proof.
  intros Hnil Hplain Helem lines.
  remember (length lines) as n eqn:Hn.
  assert (Hle : (length lines <= n)%nat) by lia. clear Hn.
  revert lines Hle. induction n as [|n IH]; intros lines Hle.
  - destruct lines; [exact Hnil|cbn in Hle; lia].
  - destruct lines as [|line following]; [exact Hnil|].
    cbn [length] in Hle. destruct (geom_match line) eqn:Hg.
    + apply Helem; [exact Hg|]. apply IH. rewrite length_drop. lia.
    + apply Hplain; [exact Hg|]. apply IH. lia.
Qed.

Lemma chunks_eq_nil (lines : list str) : chunks lines = [] -> lines = [].
Proof.
  destruct lines as [|line following]; [reflexivity|].
  rewrite chunks_cons. destruct (geom_match line); discriminate.
Qed.

(** The chunks are the lines, cut into pieces. *)
Lemma all_lines_chunks (lines : list str) : all_lines (chunks lines) = lines.
Proof.
  induction lines as [|line following Hg IH|line following Hg IH]
    using chunk_induction; [reflexivity|..];
    rewrite chunks_cons, Hg; unfold all_lines in *; cbn [map concat chunk_lines].
  - now rewrite IH.
  - rewrite IH. cbn [app]. now rewrite take_drop.
Qed.

Lemma drop_add_cons (n : nat) (lines following : list str) (line : str) (m : nat) :
  drop n lines = line :: following ->
  drop (n + S m) lines = drop m following.
Proof.
  intros H. rewrite <- drop_drop, H. reflexivity.
Qed.

(** One iteration of the loop handles the first chunk of what is left. *)
Lemma scan_step_chunk (lines : list str) (st : scan_state) (c : chunk)
    (cs : list chunk) :
  chunks (drop (i st) lines) = c :: cs ->
  scan_step lines st =
    Some (ScanState (i st + length (chunk_lines c))
            (result_lines st ++ kept_lines c)
            (removed_count st + (if discarded c then 1 else 0)))
  /\ chunks (drop (i st + length (chunk_lines c)) lines) = cs.
Proof.
  unfold scan_step. destruct (drop (i st) lines) as [|line following] eqn:Hd;
    [discriminate|].
  rewrite chunks_cons. destruct (geom_match line) eqn:Hg.
  - intros [= <- <-]. rewrite collect_element_extent.
    unfold kept_lines. cbn [discarded chunk_lines length app].
    rewrite length_take, (drop_add_cons _ _ _ _ _ Hd).
    pose proof (extent_le (paren_delta line) following) as Hle.
    replace (extent (paren_delta line) following `min` length following)%nat
      with (extent (paren_delta line) following) by lia.
    split; [|reflexivity].
    destruct (search courtyard_at _); f_equal; f_equal;
      rewrite ?app_nil_r; try reflexivity; lia.
  - intros [= <- <-]. unfold kept_lines. cbn [discarded chunk_lines length].
    rewrite (drop_add_cons _ _ _ _ _ Hd). cbn [drop].
    split; [|reflexivity]. f_equal; f_equal; lia.
Qed.

Lemma scan_step_end (lines : list str) (st : scan_state) :
  chunks (drop (i st) lines) = [] -> scan_step lines st = None.
Proof.
  intros H. apply chunks_eq_nil in H. unfold scan_step. now rewrite H.
Qed.

(** The state after [k] iterations, from the first [k] chunks. *)
Lemma scan_loop_chunks (k : nat) (lines : list str) (st : scan_state) :
  scan_loop k lines st =
    let cs := take k (chunks (drop (i st) lines)) in
    ScanState (i st + length (all_lines cs))
      (result_lines st ++ all_kept cs)
      (removed_count st + count_discarded cs).
Proof.
  revert st. induction k as [|k IH]; intros st; cbn [scan_loop take].
  - destruct st. cbn. now rewrite Nat.add_0_r, app_nil_r, Nat.add_0_r.
  - destruct (chunks (drop (i st) lines)) as [|c cs] eqn:Hc.
    + rewrite (scan_step_end _ _ Hc). destruct st. cbn.
      now rewrite Nat.add_0_r, app_nil_r, Nat.add_0_r.
    + destruct (scan_step_chunk _ _ _ _ Hc) as [-> Hcs].
      rewrite IH. cbn [i result_lines removed_count]. rewrite Hcs.
      cbn zeta. unfold all_lines, all_kept, count_discarded.
      cbn [take map concat List.filter].
      rewrite length_app, <- !app_assoc.
      destruct (discarded c); cbn [length]; f_equal; lia.
Qed.

End OuterLoop.

Section Scan.

Lemma chunks_length (lines : list str) :
  (length (chunks lines) <= length lines)%nat.
Proof.
  induction lines as [|line following Hg IH|line following Hg IH]
    using chunk_induction; [reflexivity|..];
    rewrite chunks_cons, Hg; cbn [length].
  - lia.
  - rewrite length_drop in IH. lia.
Qed.

(** The first chunk is a non-empty prefix of the lines. *)
Lemma chunks_head (lines : list str) (c : chunk) (cs : list chunk) :
  chunks lines = c :: cs ->
  chunk_lines c <> [] /\ exists rest, lines = chunk_lines c ++ rest /\ chunks rest = cs.
Proof.
  destruct lines as [|line following]; [discriminate|].
  rewrite chunks_cons. destruct (geom_match line); intros [= <- <-];
    cbn [chunk_lines]; (split; [discriminate|]).
  - exists (drop (extent (paren_delta line) following) following).
    cbn [app]. now rewrite take_drop.
  - now exists following.
Qed.

(** Every iteration moves [i] forward and keeps it inside the list. *)
Lemma scan_step_progress (lines : list str) (st st' : scan_state) :
  scan_step lines st = Some st' ->
  (i st < i st')%nat /\ (i st' <= length lines)%nat.
Proof.
  destruct (chunks (drop (i st) lines)) as [|c cs] eqn:Hc.
  - now rewrite (scan_step_end _ _ Hc).
  - destruct (scan_step_chunk _ _ _ _ Hc) as [-> _]. intros [= <-].
    cbn [i]. apply chunks_head in Hc as (Hne & rest & Hrest & _).
    assert (Hlen : length (drop (i st) lines) =
                   (length (chunk_lines c) + length rest)%nat)
      by now rewrite Hrest, length_app.
    rewrite length_drop in Hlen.
    destruct (chunk_lines c); [congruence|]. cbn [length] in *. lia.
Qed.

(** The loop is over after [len(lines)] iterations. *)
Lemma scan_chunks (lines : list str) :
  scan lines =
    ScanState (length lines) (all_kept (chunks lines))
      (count_discarded (chunks lines)).
Proof.
  unfold scan. rewrite scan_loop_chunks. cbn [i result_lines removed_count drop].
  rewrite take_ge by apply chunks_length. cbn zeta.
  now rewrite all_lines_chunks.
Qed.

Lemma scan_loop_enough (fuel : nat) (lines : list str) :
  (length lines <= fuel)%nat ->
  scan_loop fuel lines (ScanState 0 [] 0) = scan lines.
Proof.
  intros H. unfold scan. rewrite !scan_loop_chunks. cbn [i]. rewrite drop_0.
  pose proof (chunks_length lines). now rewrite !take_ge by lia.
Qed.

Lemma scan_exits (lines : list str) : scan_step lines (scan lines) = None.
Proof.
  rewrite scan_chunks. unfold scan_step. cbn [i]. now rewrite drop_all.
Qed.

Lemma strip_chunks (content : str) :
  strip_courtyard_from_content content = join (all_kept (chunks (split content))).
Proof.
  unfold strip_courtyard_from_content. now rewrite scan_chunks.
Qed.

End Scan.

(** ** Iterating the loop *)

Section Iterations.

Lemma scan_loop_done (n : nat) (lines : list str) (st : scan_state) :
  scan_step lines st = None -> scan_loop n lines st = st.
Proof. intros H. destruct n; cbn [scan_loop]; [reflexivity|now rewrite H]. Qed.

Lemma scan_loop_add (a b : nat) (lines : list str) (st : scan_state) :
  scan_loop (a + b) lines st = scan_loop b lines (scan_loop a lines st).
Proof.
  revert st. induction a as [|a IH]; intros st; cbn [Nat.add scan_loop];
    [reflexivity|].
  destruct (scan_step lines st) as [st'|] eqn:Hs; [apply IH|].
  now rewrite scan_loop_done.
Qed.

Lemma scan_loop_mono (n : nat) (lines : list str) (st : scan_state) :
  (i st <= i (scan_loop n lines st))%nat.
Proof.
  revert st. induction n as [|n IH]; intros st; cbn [scan_loop]; [lia|].
  destruct (scan_step lines st) as [st'|] eqn:Hs; [|lia].
  apply scan_step_progress in Hs. specialize (IH st'). lia.
Qed.

Lemma after_S (k : nat) (lines : list str) :
  after (S k) lines =
    match scan_step lines (after k lines) with
    | Some st' => st'
    | None => after k lines
    end.
Proof.
  unfold after. replace (S k) with (k + 1)%nat by lia.
  rewrite scan_loop_add. cbn [scan_loop].
  now destruct (scan_step lines _).
Qed.

Lemma after_mono (n m : nat) (lines : list str) :
  (n <= m)%nat -> (i (after n lines) <= i (after m lines))%nat.
Proof.
  intros H. unfold after. replace m with (n + (m - n))%nat by lia.
  rewrite scan_loop_add. apply scan_loop_mono.
Qed.

(** A counter that stays positive takes every line. *)
Lemma extent_all (pc : Z) (following : list str) :
  (forall m, (m < length following)%nat -> 0 < pc + depth (take m following)) ->
  extent pc following = length following.
Proof.
  revert pc. induction following as [|l following IH]; intros pc H;
    cbn [extent length]; [reflexivity|].
  assert (Hpc : 0 < pc).
  { specialize (H O). cbn in H. lia. }
  apply Z.ltb_lt in Hpc. rewrite Hpc. f_equal. apply IH.
  intros m Hm. specialize (H (S m)). cbn [length take depth] in H. lia.
Qed.

(** What an iteration does on a line that opens an element. *)
Lemma scan_step_element (lines : list str) (st : scan_state) (line : str)
    (following : list str) :
  drop (i st) lines = line :: following ->
  geom_match line = true ->
  exists (n : nat) (st' : scan_state),
    n = extent (paren_delta line) following /\
    scan_step lines st = Some st' /\
    i st' = (i st + S n)%nat /\
    drop (i st') lines = drop n following /\
    st' = if has_courtyard (join (line :: take n following))
          then ScanState (i st + S n) (result_lines st) (S (removed_count st))
          else ScanState (i st + S n)
                 (result_lines st ++ line :: take n following)
                 (removed_count st).
Proof.
  intros Hd Hg. exists (extent (paren_delta line) following).
  pose proof (extent_le (paren_delta line) following) as Hle.
  remember (extent (paren_delta line) following) as n eqn:Hn.
  assert (Hc : chunks (drop (i st) lines) =
               Element (line :: take n following) :: chunks (drop n following))
    by now rewrite Hd, chunks_cons, Hg, <- Hn.
  destruct (scan_step_chunk _ _ _ _ Hc) as [Hs _].
  unfold kept_lines in Hs. cbn [discarded chunk_lines length] in Hs.
  rewrite length_take in Hs. replace (n `min` length following)%nat with n in Hs by lia.
  eexists. split; [reflexivity|]. split; [exact Hs|].
  unfold has_courtyard.
  destruct (search courtyard_at (join (line :: take n following)));
    cbn [i]; rewrite (drop_add_cons _ _ _ _ _ Hd);
    (split; [reflexivity|]); (split; [reflexivity|]);
    f_equal; rewrite ?app_nil_r; try reflexivity; lia.
Qed.

End Iterations.

(** * The properties of the specification *)

(** C7: [strip_courtyard_from_content] terminates on every input, balanced
    or not: an iteration of the outer loop that runs moves the scan position
    [i] strictly forward and never past the end, the loop condition fails
    after [len(lines)] iterations, and more iterations change nothing. *)
Theorem strip_terminates (content : str) (st : scan_state) (extra : nat) :
  let lines := split content in
  match scan_step lines st with
  | Some st' => (i st < i st')%nat /\ (i st' <= length lines)%nat
  | None => (length lines <= i st)%nat
  end
  /\ scan_step lines (scan lines) = None
  /\ scan_loop (length lines + extra) lines (ScanState 0 [] 0) = scan lines.
Proof.
  intros lines. split; [|split].
  - destruct (scan_step lines st) as [st'|] eqn:Hs.
    + now apply scan_step_progress.
    + unfold scan_step in Hs.
      destruct (drop (i st) lines) as [|line following] eqn:Hd.
      * apply (f_equal length) in Hd. rewrite length_drop in Hd.
        cbn in Hd. lia.
      * destruct (geom_match line); [|discriminate].
        destruct (collect_element _ _ _ _) as [[j el] pc].
        destruct (search courtyard_at _); discriminate.
  - apply scan_exits.
  - apply scan_loop_enough. lia.
Qed.

(** C2: the scanner delimits a recognized element by the opening line and
    the lines after it, under a counter that each line changes by its
    number of opening minus its number of closing parentheses, wherever
    they stand in the line; the counter is positive after every line of
    the element but the last, and after the last line it is zero or less,
    unless the input ends there. *)
Theorem element_delimited_by_paren_count (lines : list str) (st : scan_state)
    (line : str) (following : list str) :
  drop (i st) lines = line :: following ->
  geom_match line = true ->
  exists (st' : scan_state) (element_lines : list str),
    scan_step lines st = Some st' /\
    head element_lines = Some line /\
    drop (i st) lines = element_lines ++ drop (i st') lines /\
    i st' = (i st + length element_lines)%nat /\
    (forall m, (1 <= m < length element_lines)%nat ->
               0 < depth (take m element_lines)) /\
    (drop (i st') lines = [] \/ depth element_lines <= 0) /\
    (forall before after_ : str,
       paren_delta (before ++ after_) = paren_delta before + paren_delta after_) /\
    (forall c : ascii,
       paren_delta [c] =
         if Ascii.eqb c "(" then 1 else if Ascii.eqb c ")" then -1 else 0).
Proof.
  intros Hd Hg.
  destruct (scan_step_element _ _ _ _ Hd Hg) as (n & st' & Hn & Hs & Hi & Hrest & _).
  pose proof (extent_le (paren_delta line) following) as Hle. rewrite <- Hn in Hle.
  exists st', (line :: take n following). cbn [length]. rewrite length_take.
  replace (n `min` length following)%nat with n by lia.
  split; [exact Hs|]. split; [reflexivity|]. rewrite Hrest.
  split; [|split; [exact Hi|split; [|split; [|split]]]].
  - rewrite Hd. cbn [app]. now rewrite take_drop.
  - intros m Hm. destruct m as [|m]; [lia|]. cbn [take depth].
    rewrite take_take. replace (m `min` n)%nat with m by lia.
    apply extent_positive. lia.
  - destruct (extent_stop (paren_delta line) following) as [H|H];
      rewrite <- Hn in H.
    + left. rewrite H. apply drop_all.
    + right. cbn [depth]. exact H.
  - intros before after_. unfold paren_delta.
    assert (Hc : forall c, count (before ++ after_) c =
                           count before c + count after_ c).
    { intros c. induction before as [|x before IH]; cbn [app count]; lia. }
    rewrite !Hc. lia.
  - intros c. unfold paren_delta. cbn [count].
    destruct (Ascii.eqb_spec c "(") as [->|H1]; [reflexivity|].
    destruct (Ascii.eqb_spec c ")") as [->|H2]; reflexivity.
Qed.

Lemma element_delimited_by_paren_count_witness :
  exists (st' : scan_state) (element_lines : list str),
    scan_step demo_lines (ScanState 1 [] 0) = Some st' /\
    length element_lines = 2%nat /\ i st' = 3%nat.
Proof.
  destruct (element_delimited_by_paren_count demo_lines (ScanState 1 [] 0)
              (lit "  (fp_line (start 0 0) (end 1 1)")
              (drop 2 demo_lines) eq_refl eq_refl)
    as (st' & e & Hs & _ & _ & Hi & _).
  exists st', e. split; [exact Hs|].
  vm_compute in Hs. injection Hs as <-. cbn in Hi. split; [lia|reflexivity].
Defined.

(** C10: when the counter of a recognized element stays positive through
    the last line of the input, the element is every remaining line: with
    a courtyard tag in that text all of it is dropped, without one all of
    it is kept as it is, and the function returns in both cases. *)
Theorem unbalanced_element_takes_rest (content : str) (k : nat) (line : str)
    (following : list str) :
  let lines := split content in
  let st := after k lines in
  drop (i st) lines = line :: following ->
  geom_match line = true ->
  (forall m, (1 <= m <= length (line :: following))%nat ->
             0 < depth (take m (line :: following))) ->
  scan_step lines st =
    Some (if has_courtyard (join (line :: following))
          then ScanState (length lines) (result_lines st) (S (removed_count st))
          else ScanState (length lines) (result_lines st ++ line :: following)
                 (removed_count st))
  /\ strip_courtyard_from_content content =
       join (result_lines st ++
             if has_courtyard (join (line :: following)) then []
             else line :: following).
Proof.
  intros lines st Hd Hg Hpos.
  destruct (scan_step_element _ _ _ _ Hd Hg) as (n & st' & Hn & Hs & Hi & _ & Hst').
  assert (Hall : n = length following).
  { rewrite Hn. apply extent_all. intros m Hm.
    specialize (Hpos (S m)). cbn [length take depth] in Hpos. apply Hpos. lia. }
  assert (Hlen : (i st + S n)%nat = length lines).
  { apply (f_equal length) in Hd. rewrite length_drop in Hd.
    cbn [length] in Hd. lia. }
  rewrite Hall, firstn_all in Hst'. rewrite <- Hall, Hlen in Hst'.
  assert (Hend : scan_step lines st' = None).
  { unfold scan_step. rewrite Hi, Hlen. now rewrite drop_all. }
  split; [now rewrite Hs, Hst'|].
  unfold strip_courtyard_from_content. fold lines.
  rewrite <- (scan_loop_enough (k + length lines) lines) by lia.
  rewrite scan_loop_add. fold (after k lines). fold st.
  destruct (length lines) as [|len] eqn:El; [lia|].
  cbn [scan_loop]. rewrite Hs, (scan_loop_done _ _ _ Hend), Hst'.
  destruct (has_courtyard (join (line :: following))); cbn [result_lines];
    now rewrite ?app_nil_r.
Qed.

Lemma unbalanced_element_takes_rest_witness :
  strip_courtyard_from_content (join open_lines) = lit "(footprint demo".
Proof.
  destruct (unbalanced_element_takes_rest (join open_lines) 1
              (lit "  (fp_poly (pts") (drop 2 open_lines) eq_refl eq_refl)
    as [_ H].
  - intros m Hm. destruct m as [|[|[|m]]]; cbn [length] in Hm; try lia;
      vm_compute; reflexivity.
  - rewrite H. vm_compute. reflexivity.
Defined.

(** C6: recognized elements are scanned one after the other.  When the
    iteration at position [i] recognizes an element, the next iteration
    starts at the first line after it, no iteration starts on a line
    inside it, and its lines are dropped together or appended together,
    by the one test on the text of the whole element. *)
Theorem elements_scanned_disjointly (lines : list str) (k : nat) (line : str)
    (following : list str) :
  drop (i (after k lines)) lines = line :: following ->
  geom_match line = true ->
  exists element_lines : list str,
    head element_lines = Some line /\
    drop (i (after k lines)) lines =
      element_lines ++ drop (i (after (S k) lines)) lines /\
    i (after (S k) lines) = (i (after k lines) + length element_lines)%nat /\
    (forall n, ~ (i (after k lines) < i (after n lines) < i (after (S k) lines))%nat) /\
    ((has_courtyard (join element_lines) = true /\
      result_lines (after (S k) lines) = result_lines (after k lines)) \/
     (has_courtyard (join element_lines) = false /\
      result_lines (after (S k) lines) =
        result_lines (after k lines) ++ element_lines)).
Proof.
  intros Hd Hg.
  destruct (scan_step_element _ _ _ _ Hd Hg) as (n & st' & Hn & Hs & Hi & Hrest & Hst').
  pose proof (extent_le (paren_delta line) following) as Hle. rewrite <- Hn in Hle.
  assert (HS : after (S k) lines = st') by now rewrite after_S, Hs.
  exists (line :: take n following). rewrite HS, Hrest, Hi.
  cbn [length]. rewrite length_take.
  replace (n `min` length following)%nat with n by lia.
  split; [reflexivity|]. split; [|split; [reflexivity|split]].
  - rewrite Hd. cbn [app]. now rewrite take_drop.
  - intros m [H1 H2]. destruct (Nat.le_gt_cases m k) as [Hm|Hm].
    + pose proof (after_mono m k lines Hm). lia.
    + pose proof (after_mono (S k) m lines Hm) as H. rewrite HS, Hi in H. lia.
  - rewrite Hst'. destruct (has_courtyard (join (line :: take n following)));
      [left|right]; (split; [reflexivity|]); reflexivity.
Qed.

Lemma elements_scanned_disjointly_witness :
  exists element_lines : list str,
    length element_lines = 2%nat /\
    i (after 2 demo_lines) = 3%nat /\
    result_lines (after 2 demo_lines) = result_lines (after 1 demo_lines).
Proof.
  destruct (elements_scanned_disjointly demo_lines 1
              (lit "  (fp_line (start 0 0) (end 1 1)")
              (drop 2 demo_lines) eq_refl eq_refl)
    as (e & _ & _ & Hi & _ & _).
  exists e.
  change (i (after 2 demo_lines)) with 3%nat in Hi.
  change (i (after 1 demo_lines)) with 1%nat in Hi.
  split; [lia|]. split; reflexivity.
Defined.

(** ** Chunks and the output *)

Section Output.

Lemma kept_lines_output_of (c : chunk) : kept_lines c = output_of c.
Proof. destruct c; reflexivity. Qed.

Lemma all_kept_output_of (cs : list chunk) :
  all_kept cs = concat (map output_of cs).
Proof.
  unfold all_kept. f_equal. apply map_ext. exact kept_lines_output_of.
Qed.

Lemma chunks_scanned (lines : list str) : Forall scanned (chunks lines).
Proof.
  induction lines as [|line following Hg IH|line following Hg IH]
    using chunk_induction; [constructor|..];
    rewrite chunks_cons, Hg; constructor; trivial.
  cbn [scanned]. eauto.
Qed.

Lemma after_chunks (k : nat) (lines : list str) :
  after k lines =
    ScanState (length (all_lines (take k (chunks lines))))
      (all_kept (take k (chunks lines)))
      (count_discarded (take k (chunks lines))).
Proof.
  unfold after. rewrite scan_loop_chunks. cbn [i]. now rewrite drop_0.
Qed.

Lemma all_kept_sublist (cs : list chunk) : sublist (all_kept cs) (all_lines cs).
Proof.
  unfold all_kept, all_lines. induction cs as [|c cs IH]; cbn [map concat].
  - constructor.
  - apply sublist_app; [|exact IH]. unfold kept_lines.
    destruct (discarded c); [apply sublist_nil_l|reflexivity].
Qed.

Lemma plain_lines_sublist (cs : list chunk) : sublist (plain_lines cs) (all_kept cs).
Proof.
  unfold plain_lines, all_kept. induction cs as [|c cs IH]; cbn [map concat].
  - constructor.
  - apply sublist_app; [|exact IH].
    destruct c; [reflexivity|apply sublist_nil_l].
Qed.

Lemma sublist_all (Q : str -> Prop) (l1 l2 : list str) :
  sublist l1 l2 -> Forall Q l2 -> Forall Q l1.
Proof.
  induction 1 as [|x l1 l2 _ IH|x l1 l2 _ IH]; intros H;
    [constructor|inversion H; subst; constructor; auto|inversion H; auto].
Qed.

(** Splitting the joined output gives its lines back. *)
Lemma split_output (content : str) :
  let lines := split content in
  sublist (all_kept (chunks lines)) lines
  /\ split (join (all_kept (chunks lines))) =
       match all_kept (chunks lines) with
       | [] => [[]]
       | _ :: _ => all_kept (chunks lines)
       end.
Proof.
  intros lines.
  assert (Hsub : sublist (all_kept (chunks lines)) lines).
  { rewrite <- (all_lines_chunks lines) at 2. apply all_kept_sublist. }
  split; [exact Hsub|].
  destruct (all_kept (chunks lines)) as [|l ls] eqn:E; [reflexivity|].
  apply split_join; [discriminate|].
  eapply sublist_all; [exact Hsub|]. apply split_one_line.
Qed.

End Output.

(** C3: only whole lines are deleted.  The lines the output is joined
    from are a subsequence of the input lines, and the input lines that
    belong to no recognized element are a subsequence of them; splitting
    the output gives these lines back (one empty line when none is left). *)
Theorem only_whole_lines_deleted (content : str) :
  let lines := split content in
  let out := result_lines (scan lines) in
  strip_courtyard_from_content content = join out
  /\ sublist out lines
  /\ sublist (plain_lines (chunks lines)) out
  /\ split (strip_courtyard_from_content content) =
       match out with
       | [] => [[]]
       | _ :: _ => out
       end.
Proof.
  intros lines out. subst out. rewrite strip_chunks, scan_chunks.
  cbn [result_lines]. fold lines.
  destruct (split_output content) as [Hsub Hsplit]. fold lines in Hsub, Hsplit.
  split; [reflexivity|]. split; [exact Hsub|].
  split; [apply plain_lines_sublist|exact Hsplit].
Qed.

(** ** The line pattern *)

Section LinePattern.

Lemma keyword_ends_in_word_char (kw : str) :
  In kw keywords -> word_char (last kw) = true.
Proof.
  unfold keywords. cbn [In].
  intros [<-|[<-|[<-|[<-|[<-|[]]]]]]; reflexivity.
Qed.

Lemma geom_match_text (line : str) : geom_match line = true -> geom_text line.
Proof.
  unfold geom_match.
  destruct (strip_prefix (lit "(") (skip_spaces line)) as [rest|] eqn:E;
    [|discriminate].
  apply strip_prefix_Some in E. intros H.
  apply existsb_exists in H as (kw & Hkw & Hat).
  unfold keyword_at in Hat.
  destruct (strip_prefix kw rest) as [tail|] eqn:E2; [|discriminate].
  apply strip_prefix_Some in E2.
  unfold word_boundary in Hat.
  rewrite (keyword_ends_in_word_char _ Hkw) in Hat.
  destruct (skip_spaces_split line) as (ws & Hline & Hws & _).
  exists ws, kw, tail. split; [exact Hws|]. split; [exact Hkw|].
  split; [now destruct (word_char (head tail))|].
  now rewrite Hline at 1; rewrite E, E2.
Qed.

Lemma geom_text_match (line : str) : geom_text line -> geom_match line = true.
Proof.
  intros (ws & kw & tail & Hws & Hkw & Htail & ->).
  unfold geom_match. rewrite skip_spaces_app; [|exact Hws|reflexivity].
  rewrite strip_prefix_app. apply existsb_exists. exists kw.
  split; [exact Hkw|]. unfold keyword_at, word_boundary.
  now rewrite strip_prefix_app, (keyword_ends_in_word_char _ Hkw), Htail.
Qed.

End LinePattern.

(** C5: a line opens an element exactly when it is white space, then an
    opening parenthesis directly followed by one of the five keywords
    [fp_rect], [fp_line], [fp_poly], [fp_circle], [fp_arc], then the end of
    the line or a character that is not a word character.  A line whose
    first character after the white space is not the parenthesis is never
    recognized, whatever comes later in it; and a line the pattern rejects,
    met at the scan position, goes to the output and the scan moves one
    line on. *)
Theorem geom_match_recognizes_five_keywords (line : str) :
  (geom_match line = true <-> geom_text line)
  /\ keywords =
       [lit "fp_rect"; lit "fp_line"; lit "fp_poly"; lit "fp_circle"; lit "fp_arc"]
  /\ (forall (ws : str) (c : ascii) (rest : str),
        spaces ws -> is_space c = false -> c <> "("%char ->
        geom_match (ws ++ c :: rest) = false)
  /\ (forall (lines : list str) (st : scan_state) (following : list str),
        drop (i st) lines = line :: following ->
        geom_match line = false ->
        scan_step lines st =
          Some (ScanState (S (i st)) (result_lines st ++ [line])
                  (removed_count st))).
Proof.
  split; [split; [apply geom_match_text|apply geom_text_match]|].
  split; [reflexivity|]. split.
  - intros ws c rest Hws Hc Hne. unfold geom_match.
    rewrite skip_spaces_app; [|exact Hws|exact Hc].
    cbn [lit list_ascii_of_string strip_prefix].
    destruct (Ascii.eqb_spec "(" c) as [<-|_]; [congruence|reflexivity].
  - intros lines st following Hd Hg. unfold scan_step. now rewrite Hd, Hg.
Qed.

Section Judgement.

Lemma has_courtyard_tagged (text : str) : has_courtyard text = true <-> tagged text.
Proof.
  unfold has_courtyard, tagged. rewrite search_true.
  split; intros (before & t & H & Ht); exists before, t;
    (split; [exact H|]); now apply courtyard_at_spec.
Qed.

(** Every chunk the loop forms gets what the patterns say it should. *)
Lemma scanned_judged (c : chunk) : scanned c -> judged c (output_of c).
Proof.
  destruct c as [line|e]; cbn [scanned judged output_of].
  - intros Hg. split; [|reflexivity]. intros Ht.
    apply geom_text_match in Ht. congruence.
  - intros (line & rest & -> & Hg). split.
    + exists line, rest. split; [reflexivity|]. now apply geom_match_text.
    + destruct (has_courtyard (join (line :: rest))) eqn:Hc.
      * left. split; [now apply has_courtyard_tagged|reflexivity].
      * right. split; [|reflexivity]. intros Ht.
        apply has_courtyard_tagged in Ht. congruence.
Qed.

End Judgement.

(** C1: the function removes exactly the scanned elements whose text holds
    a courtyard layer tag.  The chunks the loop forms cover the input in
    order; each iteration starts where the chunks before it end; the output
    is, chunk by chunk, a plain line as it is, nothing for an element whose
    joined text matches the pattern, and all the lines of any other
    element.  In the words of the patterns themselves: a plain chunk is a
    line that is not white space, a parenthesis and one of the five
    keywords, and it is kept; an element starts with such a line, and it is
    dropped when its joined text holds [layer], white space and the quoted
    [F.CrtYd] or [B.CrtYd], and kept whole when it does not. *)
Theorem strip_removes_exactly_courtyard_elements (content : str) (k : nat) :
  let lines := split content in
  let cs := chunks lines in
  Forall scanned cs
  /\ concat (map chunk_lines cs) = lines
  /\ i (after k lines) = length (concat (map chunk_lines (take k cs)))
  /\ result_lines (after k lines) = concat (map output_of (take k cs))
  /\ strip_courtyard_from_content content = join (concat (map output_of cs))
  /\ Forall (fun c => judged c (output_of c)) cs.
Proof.
  intros lines cs. split; [apply chunks_scanned|].
  split; [apply all_lines_chunks|].
  rewrite after_chunks. cbn [i result_lines].
  split; [reflexivity|]. split; [apply all_kept_output_of|].
  split; [rewrite strip_chunks; f_equal; apply all_kept_output_of|].
  eapply Forall_impl; [apply chunks_scanned|]. exact scanned_judged.
Qed.

Lemma strip_removes_exactly_courtyard_elements_witness :
  strip_courtyard_from_content demo = join (take 1 demo_lines ++ drop 3 demo_lines)
  /\ tagged (join (take 2 (drop 1 demo_lines)))
  /\ ~ tagged (join (take 1 (drop 3 demo_lines))).
Proof.
  destruct (strip_removes_exactly_courtyard_elements demo 0)
    as (_ & _ & _ & _ & Hout & Hj).
  assert (E : chunks (split demo) =
              [ Plain (lit "(footprint demo");
                Element (take 2 (drop 1 demo_lines));
                Element (take 1 (drop 3 demo_lines));
                Plain (lit ")") ])
    by (vm_compute; reflexivity).
  rewrite E in Hout, Hj. split; [rewrite Hout; vm_compute; reflexivity|].
  apply Forall_cons in Hj as [_ Hj].
  apply Forall_cons in Hj as [[_ H1] Hj].
  apply Forall_cons in Hj as [[_ H2] _].
  split.
  - destruct H1 as [[Ht _]|[_ Ho]]; [exact Ht|].
    vm_compute in Ho. discriminate.
  - destruct H2 as [[_ Ho]|[Ht _]]; [|exact Ht].
    vm_compute in Ho. discriminate.
Defined.

(** ** Texts without a courtyard tag, and a second pass *)

Section Passes.

Lemma search_join_l (ls1 ls2 : list str) :
  search courtyard_at (join ls1) = true ->
  search courtyard_at (join (ls1 ++ ls2)) = true.
Proof.
  intros H. destruct ls1 as [|l1 ls1]; [discriminate|].
  destruct ls2 as [|l2 ls2]; [now rewrite app_nil_r|].
  rewrite join_app by discriminate.
  now apply (search_courtyard_within []).
Qed.

Lemma search_join_r (ls1 ls2 : list str) :
  search courtyard_at (join ls2) = true ->
  search courtyard_at (join (ls1 ++ ls2)) = true.
Proof.
  intros H. destruct ls2 as [|l2 ls2]; [discriminate|].
  destruct ls1 as [|l1 ls1]; [exact H|].
  rewrite join_app by discriminate.
  replace (join (l1 :: ls1) ++ newline :: join (l2 :: ls2))
    with ((join (l1 :: ls1) ++ [newline]) ++ join (l2 :: ls2) ++ [])
    by now rewrite app_nil_r, <- app_assoc.
  now apply search_courtyard_within.
Qed.

Lemma search_join_parts (ls1 ls2 : list str) :
  search courtyard_at (join (ls1 ++ ls2)) = false ->
  search courtyard_at (join ls1) = false /\ search courtyard_at (join ls2) = false.
Proof.
  intros H. split.
  - destruct (search courtyard_at (join ls1)) eqn:E; [|reflexivity].
    apply (search_join_l ls1 ls2) in E. congruence.
  - destruct (search courtyard_at (join ls2)) eqn:E; [|reflexivity].
    apply (search_join_r ls1 ls2) in E. congruence.
Qed.

Lemma all_kept_cons (c : chunk) (cs : list chunk) :
  all_kept (c :: cs) = kept_lines c ++ all_kept cs.
Proof. reflexivity. Qed.

(** Without a tag anywhere in the text, every chunk is kept. *)
Lemma all_kept_without_courtyard (lines : list str) :
  search courtyard_at (join lines) = false -> all_kept (chunks lines) = lines.
Proof.
  induction lines as [|line following Hg IH|line following Hg IH]
    using chunk_induction; [reflexivity|..]; intros H;
    rewrite chunks_cons, Hg, all_kept_cons.
  - apply (search_join_parts [line] following) in H as [_ H].
    now rewrite IH.
  - set (n := extent (paren_delta line) following) in *.
    rewrite <- (take_drop n following) in H.
    apply (search_join_parts (line :: take n following)) in H as [H1 H2].
    unfold kept_lines. cbn [discarded chunk_lines]. rewrite H1, IH by exact H2.
    cbn [app]. now rewrite take_drop.
Qed.

(** Lines that close an element close it whatever follows them. *)
Lemma extent_closed (pc : Z) (ls more : list str) :
  extent pc ls = length ls -> pc + depth ls <= 0 ->
  extent pc (ls ++ more) = length ls.
Proof.
  revert pc. induction ls as [|l ls IH]; intros pc; cbn [extent length app depth].
  - intros _ H. destruct more as [|l more]; [reflexivity|]. cbn [extent].
    destruct (0 <? pc) eqn:Hpc; [|reflexivity]. apply Z.ltb_lt in Hpc. lia.
  - destruct (0 <? pc); [|discriminate].
    intros [= H] Hd. f_equal. apply IH; [exact H|lia].
Qed.

(** The lines of a kept element are taken again, with whatever the first
    pass left after them. *)
Lemma extent_kept (pc : Z) (following more : list str) :
  let n := extent pc following in
  (drop n following = [] -> more = []) ->
  extent pc (take n following ++ more) = n
  /\ length (take n following) = n.
Proof.
  intros n Hmore.
  pose proof (extent_le pc following) as Hle. fold n in Hle.
  assert (Hlen : length (take n following) = n)
    by (rewrite length_take; lia).
  split; [|exact Hlen].
  destruct (extent_stop pc following) as [H|H]; fold n in H.
  - rewrite Hmore by (rewrite H; apply drop_all).
    rewrite app_nil_r. apply extent_take.
  - rewrite <- Hlen at 2. apply extent_closed; [|exact H].
    rewrite Hlen. apply extent_take.
Qed.

Lemma all_kept_nil (lines : list str) : lines = [] -> all_kept (chunks lines) = [].
Proof. now intros ->. Qed.

(** A second pass over the lines of the output changes nothing. *)
Lemma all_kept_idempotent (lines : list str) :
  all_kept (chunks (all_kept (chunks lines))) = all_kept (chunks lines).
Proof.
  induction lines as [|line following Hg IH|line following Hg IH]
    using chunk_induction; [reflexivity|..];
    rewrite chunks_cons, Hg, all_kept_cons.
  - change (kept_lines (Plain line)) with [line]. cbn [app].
    rewrite chunks_cons, Hg, all_kept_cons, IH. reflexivity.
  - set (n := extent (paren_delta line) following) in *.
    unfold kept_lines. cbn [discarded chunk_lines].
    destruct (search courtyard_at (join (line :: take n following))) eqn:Hc;
      [exact IH|].
    cbn [app]. rewrite chunks_cons, Hg.
    destruct (extent_kept (paren_delta line) following
                (all_kept (chunks (drop n following)))) as [He Hlen].
    { apply all_kept_nil. }
    fold n in He, Hlen. rewrite He.
    rewrite take_app_length' by (symmetry; exact Hlen).
    rewrite drop_app_length' by (symmetry; exact Hlen).
    rewrite all_kept_cons, IH. unfold kept_lines. cbn [discarded chunk_lines].
    now rewrite Hc.
Qed.

End Passes.

(** C9: the function is idempotent: applied to its own output it returns
    that output.  The second pass cuts the output into the chunks the first
    pass kept and discards none of them. *)
Theorem strip_idempotent (content : str) :
  strip_courtyard_from_content (strip_courtyard_from_content content) =
    strip_courtyard_from_content content.
Proof.
  rewrite !strip_chunks.
  destruct (split_output content) as [_ Hsplit]. cbn zeta in Hsplit.
  rewrite Hsplit.
  destruct (all_kept (chunks (split content))) as [|l ls] eqn:E; [reflexivity|].
  rewrite <- E. now rewrite all_kept_idempotent.
Qed.

(** ** process_file *)

Section ProcessFile.

Context {P : Platform}.

(** The whole effect of [process_file], case by case. *)
Lemma process_file_cases (input_path output_path : path)
    (strip_courtyard strip_designator : bool) (m : machine) :
  process_file input_path output_path strip_courtyard strip_designator m =
    match read_text (fs m) input_path with
    | Raise e => on_raise input_path (fs m) (logged m) e
    | Ok content =>
        let before := logged m ++ progress_log strip_courtyard input_path content in
        match write_text (fs m) output_path (processed strip_courtyard content) with
        | (w, Ok _) =>
            (Machine w
               (before ++
                [if (strip_courtyard && has_courtyard content)%bool
                 then InfoCreated (path_name output_path)
                 else InfoCopied (path_name output_path)]),
             Ok true)
        | (w, Raise e) => on_raise input_path w before e
        end
    end.
Proof.
  unfold process_file, try_except, bind, read_file, write_file, log, ret,
    strip_courtyard_logged, processed, progress_log, strip_courtyard_from_content,
    on_raise.
  destruct (read_text (fs m) input_path) as [content|e];
    [|destruct (is_Exception e), m; reflexivity].
  destruct strip_courtyard; cbn [andb fs logged];
    [destruct (has_courtyard content);
     [unfold bind, log, ret;
      destruct (Nat.ltb 0 (removed_count (scan (split content))))|]|];
    cbn [fs logged];
    destruct (write_text (fs m) output_path _) as [w [u|e]];
    cbn [fs logged]; try destruct (is_Exception e);
    rewrite <- ?app_assoc, ?app_nil_r; reflexivity.
Qed.

(** The records logged before the write close no file. *)
Lemma progress_log_neutral (strip_courtyard : bool) (input_path : path)
    (content : str) :
  List.filter is_success (progress_log strip_courtyard input_path content) = []
  /\ List.filter is_failure (progress_log strip_courtyard input_path content) = [].
Proof.
  unfold progress_log. destruct strip_courtyard; [|now split].
  destruct (has_courtyard content); [|now split].
  destruct (Nat.ltb 0 _); now split.
Qed.

(** One call either returns, with one closing record added to the log, or
    lets out something that is no instance of [Exception]. *)
Lemma process_file_outcome (input_path output_path : path)
    (strip_courtyard strip_designator : bool) (m : machine) :
  exists (w : world) (new : list log_record) (r : result exception bool),
    process_file input_path output_path strip_courtyard strip_designator m =
      (Machine w (logged m ++ new), r)
    /\ match r with
       | Ok ok =>
           length (List.filter is_success new) = (if ok then 1 else 0)%nat
           /\ length (List.filter is_failure new) = (if ok then 0 else 1)%nat
           /\ last new = Some (List.last new (InfoRemoved 0))
           /\ is_failure (List.last new (InfoRemoved 0)) = negb ok
       | Raise e => is_Exception e = false
       end.
Proof.
  rewrite process_file_cases. unfold on_raise.
  destruct (read_text (fs m) input_path) as [content|e].
  - cbn zeta.
    destruct (progress_log_neutral strip_courtyard input_path content) as [Hs Hf].
    destruct (write_text (fs m) output_path _) as [w [u|e]];
      [|destruct (is_Exception e) eqn:He].
    + eexists w, (progress_log _ _ _ ++ [_]), _.
      rewrite app_assoc. split; [reflexivity|]. cbn beta iota.
      rewrite !List.filter_app, Hs, Hf, last_snoc, List.last_last.
      destruct (strip_courtyard && has_courtyard content)%bool; repeat split.
    + eexists w, (progress_log _ _ _ ++ [_]), _.
      rewrite app_assoc. split; [reflexivity|]. cbn beta iota.
      rewrite !List.filter_app, Hs, Hf, last_snoc, List.last_last.
      repeat split.
    + eexists w, (progress_log _ _ _), _. split; [reflexivity|]. exact He.
  - destruct (is_Exception e) eqn:He.
    + eexists (fs m), [_], _. split; [reflexivity|]. repeat split.
    + exists (fs m), [], (Raise e). rewrite app_nil_r. now destruct m.
Qed.

(** The loop over the files: it handles every file, whatever happened to
    the ones before it, unless a call lets something out that is no
    instance of [Exception]. *)
Lemma process_files_cases (output_file : path -> path) (kicad_files : list path)
    (strip_courtyard strip_designator : bool) (success_count : nat) (m : machine) :
  exists (w : world) (new : list log_record) (r : result exception nat),
    process_files output_file kicad_files strip_courtyard strip_designator
      success_count m = (Machine w (logged m ++ new), r)
    /\ match r with
       | Ok n =>
           n = (success_count + length (List.filter is_success new))%nat
           /\ (length (List.filter is_success new) +
               length (List.filter is_failure new))%nat = length kicad_files
       | Raise e => is_Exception e = false
       end.
Proof.
  revert success_count m.
  induction kicad_files as [|f files IH]; intros k m; cbn [process_files].
  - exists (fs m), [], (Ok k). unfold ret. rewrite app_nil_r. destruct m.
    cbn. repeat split. lia.
  - unfold bind.
    destruct (process_file_outcome f (output_file f) strip_courtyard
                strip_designator m) as (w & new & [ok|e] & -> & H).
    + destruct H as (Hs & Hf & _).
      destruct (IH (if ok then S k else k) (Machine w (logged m ++ new)))
        as (w' & new' & r & -> & Hr).
      exists w', (new ++ new'), r. cbn [logged]. rewrite <- app_assoc.
      split; [reflexivity|]. destruct r as [n|e]; [|exact Hr].
      destruct Hr as [-> Hr]. rewrite !List.filter_app, !length_app, Hs, Hf.
      cbn [length]. destruct ok; split; lia.
    + exists w, new, (Raise e). split; [reflexivity|exact H].
Qed.

End ProcessFile.

Section FileClaims.

Context {P : Platform}.

(** C4, as amended: [process_file] never lets an instance of [Exception]
    out.  When the read or the write raises one, it logs the error and
    returns [False]; when nothing is raised it returns [True]; what it
    lets out is no instance of [Exception].  The loop of [main] reaches
    every file after such failures: each file ends in one success or one
    error record.  The last two parts give the two failures directly: an
    instance of [Exception] raised by the read, or by the write, ends the
    call with the error record appended and [False] returned. *)
Theorem process_file_catches_Exception (m : machine) (input_path output_path : path)
    (strip_courtyard strip_designator : bool) (output_file : path -> path)
    (kicad_files : list path) (success_count : nat) :
  (exists (m' : machine) (r : result exception bool),
     process_file input_path output_path strip_courtyard strip_designator m = (m', r)
     /\ (r = Ok true <->
         exists content,
           read_text (fs m) input_path = Ok content /\
           snd (write_text (fs m) output_path (processed strip_courtyard content))
             = Ok tt)
     /\ (r = Ok false <->
         exists e, is_Exception e = true /\
                   last (logged m') = Some (ErrorProcessing input_path e) /\
           (read_text (fs m) input_path = Raise e \/
            exists content,
              read_text (fs m) input_path = Ok content /\
              snd (write_text (fs m) output_path (processed strip_courtyard content))
                = Raise e))
     /\ (forall e, r = Raise e -> is_Exception e = false))
  /\ (exists (w : world) (new : list log_record) (r : result exception nat),
        process_files output_file kicad_files strip_courtyard strip_designator
          success_count m = (Machine w (logged m ++ new), r)
        /\ match r with
           | Ok n =>
               n = (success_count + length (List.filter is_success new))%nat
               /\ (length (List.filter is_success new) +
                   length (List.filter is_failure new))%nat = length kicad_files
           | Raise e => is_Exception e = false
           end)
  /\ (forall e,
        read_text (fs m) input_path = Raise e -> is_Exception e = true ->
        process_file input_path output_path strip_courtyard strip_designator m =
          (Machine (fs m) (logged m ++ [ErrorProcessing input_path e]), Ok false))
  /\ (forall content w e,
        read_text (fs m) input_path = Ok content ->
        write_text (fs m) output_path (processed strip_courtyard content)
          = (w, Raise e) ->
        is_Exception e = true ->
        process_file input_path output_path strip_courtyard strip_designator m =
          (Machine w
             (logged m ++ progress_log strip_courtyard input_path content ++
              [ErrorProcessing input_path e]),
           Ok false)).
Proof.
  split; [|split; [apply process_files_cases|split]];
    [|intros e Hr He; rewrite process_file_cases, Hr; unfold on_raise;
      now rewrite He
     |intros content w e Hr Hw He; rewrite process_file_cases, Hr; cbn zeta;
      rewrite Hw; unfold on_raise; rewrite He; now rewrite <- app_assoc].
  rewrite process_file_cases. unfold on_raise.
  destruct (read_text (fs m) input_path) as [content|e].
  - cbn zeta.
    destruct (write_text (fs m) output_path (processed strip_courtyard content))
      as [w [[]|e]] eqn:Hw; [|destruct (is_Exception e) eqn:He].
    + eexists _, _. split; [reflexivity|]. split; [|split].
      * split; [intros _|reflexivity]. exists content. now rewrite Hw.
      * split; [discriminate|]. intros (e & _ & _ & [H|(c & [= <-] & H)]);
          [discriminate|]. rewrite Hw in H. discriminate.
      * discriminate.
    + eexists _, _. split; [reflexivity|]. split; [|split].
      * split; [discriminate|]. intros (c & [= <-] & Hc).
        rewrite Hw in Hc. discriminate.
      * split; [intros _|reflexivity]. exists e. split; [exact He|].
        split; [cbn [logged]; apply last_snoc|].
        right. exists content. now rewrite Hw.
      * discriminate.
    + eexists _, _. split; [reflexivity|]. split; [|split].
      * split; [discriminate|]. intros (c & [= <-] & Hc).
        rewrite Hw in Hc. discriminate.
      * split; [discriminate|].
        intros (e' & He' & _ & [H|(c & [= <-] & H)]); [discriminate|].
        rewrite Hw in H. cbn in H. congruence.
      * intros e' [= <-]. exact He.
  - destruct (is_Exception e) eqn:He.
    + eexists _, _. split; [reflexivity|]. split; [|split].
      * split; [discriminate|]. intros (c & Hc & _). discriminate.
      * split; [intros _|reflexivity]. exists e. split; [exact He|].
        split; [cbn [logged]; apply last_snoc|now left].
      * discriminate.
    + eexists _, _. split; [reflexivity|]. split; [|split].
      * split; [discriminate|]. intros (c & Hc & _). discriminate.
      * split; [discriminate|].
        intros (e' & He' & _ & [[= <-]|(c & H & _)]); congruence.
      * intros e' [= <-]. exact He.
Qed.

End FileClaims.

(** C4, as stated, fails: an interrupt raised while the input is read is
    no instance of [Exception]; the handler does not catch it, nothing is
    logged and no value is returned. *)
Lemma process_file_lets_interrupt_out :
  process_file (P := interrupted_platform) "a.kicad_mod"%string
    "a-nofp.kicad_mod"%string true false interrupted_machine
  = (interrupted_machine, Raise KeyboardInterrupt).
Proof. reflexivity. Qed.

(** C8: a content in which [has_courtyard] finds nothing comes back from
    [strip_courtyard_from_content] character for character, and
    [process_file], having read it, hands that same content to the write. *)
Theorem no_courtyard_means_unchanged (content : str) :
  has_courtyard content = false ->
  strip_courtyard_from_content content = content
  /\ forall (P : Platform) (m : machine) (input_path output_path : path)
       (strip_courtyard strip_designator : bool),
       read_text (fs m) input_path = Ok content ->
       process_file input_path output_path strip_courtyard strip_designator m =
         let before :=
           logged m ++
           (if strip_courtyard then [WarningNoCourtyard (path_name input_path)]
            else []) in
         match write_text (fs m) output_path content with
         | (w, Ok _) =>
             (Machine w (before ++ [InfoCopied (path_name output_path)]), Ok true)
         | (w, Raise e) => on_raise input_path w before e
         end.
Proof.
  intros Hc. split.
  - rewrite strip_chunks, all_kept_without_courtyard; [apply join_split|].
    now rewrite join_split.
  - intros P m input_path output_path strip_courtyard strip_designator Hr.
    rewrite process_file_cases, Hr. unfold processed, progress_log.
    rewrite Hc, andb_false_r. reflexivity.
Qed.

Lemma no_courtyard_means_unchanged_witness :
  strip_courtyard_from_content (lit "(footprint demo)") = lit "(footprint demo)"
  /\ snd (process_file (P := demo_platform) "a.kicad_mod"%string "b.kicad_mod"%string
            true false plain_machine)
     = Ok true.
Proof.
  destruct (no_courtyard_means_unchanged (lit "(footprint demo)") eq_refl)
    as [H1 H2].
  split; [exact H1|].
  rewrite (H2 demo_platform plain_machine "a.kicad_mod"%string
             "b.kicad_mod"%string true false eq_refl).
  reflexivity.
Defined.

(** * Further properties of the scanner *)

Section Sizes.

Lemma length_join (ls : list str) : length (join ls) = pred (weight ls).
Proof.
  induction ls as [|l ls IH]; [reflexivity|].
  destruct ls as [|l' ls].
  - cbn. lia.
  - rewrite join_cons_cons, length_app. cbn [length].
    rewrite IH. cbn [weight]. lia.
Qed.

Lemma weight_app (ls1 ls2 : list str) :
  weight (ls1 ++ ls2) = (weight ls1 + weight ls2)%nat.
Proof. induction ls1 as [|l ls1 IH]; cbn [app weight]; lia. Qed.

Lemma geom_match_not_empty (line : str) :
  geom_match line = true -> (1 <= length line)%nat.
Proof. destruct line; [discriminate|cbn; lia]. Qed.

Lemma all_lines_cons (c : chunk) (cs : list chunk) :
  all_lines (c :: cs) = chunk_lines c ++ all_lines cs.
Proof. reflexivity. Qed.

Lemma count_discarded_cons (c : chunk) (cs : list chunk) :
  count_discarded (c :: cs) =
    ((if discarded c then 1 else 0) + count_discarded cs)%nat.
Proof. unfold count_discarded. cbn [List.filter]. now destruct (discarded c). Qed.

(** What the kept lines weigh, against all the lines: two characters less
    at least for every chunk that was dropped. *)
Lemma weight_all_kept (cs : list chunk) :
  Forall scanned cs ->
  (weight (all_kept cs) + 2 * count_discarded cs <= weight (all_lines cs))%nat
  /\ (count_discarded cs + length (all_kept cs) <= length (all_lines cs))%nat.
Proof.
  induction 1 as [|c cs Hc _ [IH1 IH2]]; [cbn; lia|].
  rewrite all_kept_cons, all_lines_cons, count_discarded_cons.
  rewrite !weight_app, !length_app.
  unfold kept_lines. destruct (discarded c) eqn:Hd; cbn [length weight].
  - destruct c as [line|e]; [discriminate|].
    destruct Hc as (line & rest & -> & Hg). apply geom_match_not_empty in Hg.
    cbn [chunk_lines weight length]. lia.
  - lia.
Qed.

Lemma all_kept_no_removal (cs : list chunk) :
  count_discarded cs = O -> all_kept cs = all_lines cs.
Proof.
  induction cs as [|c cs IH]; [reflexivity|].
  rewrite all_kept_cons, all_lines_cons, count_discarded_cons.
  unfold kept_lines. destruct (discarded c); [discriminate|].
  intros H. now rewrite IH.
Qed.

Lemma strip_length (content : str) :
  let cs := chunks (split content) in
  (length (strip_courtyard_from_content content) + 2 * count_discarded cs
   <= length content + (if Nat.eqb (count_discarded cs) 0 then 0 else 1))%nat.
Proof.
  intros cs. rewrite strip_chunks. fold cs.
  assert (Hc : length content = pred (weight (all_lines cs))).
  { subst cs. now rewrite all_lines_chunks, <- length_join, join_split. }
  rewrite Hc, length_join.
  destruct (weight_all_kept cs (chunks_scanned _)) as [H _].
  destruct (Nat.eqb_spec (count_discarded cs) 0); lia.
Qed.

Lemma removed_count_scan (lines : list str) :
  removed_count (scan lines) = count_discarded (chunks lines).
Proof. now rewrite scan_chunks. Qed.

Lemma strip_unchanged_iff (content : str) :
  removed_count (scan (split content)) = O <->
  strip_courtyard_from_content content = content.
Proof.
  rewrite removed_count_scan. split.
  - intros H. rewrite strip_chunks, (all_kept_no_removal _ H), all_lines_chunks.
    apply join_split.
  - intros H. pose proof (strip_length content) as Hl. cbn zeta in Hl.
    rewrite H in Hl.
    destruct (Nat.eqb_spec (count_discarded (chunks (split content))) 0); lia.
Qed.

(** A second pass returns what the first pass returned. *)
Lemma strip_strip (content : str) :
  strip_courtyard_from_content (strip_courtyard_from_content content) =
    strip_courtyard_from_content content.
Proof.
  rewrite !strip_chunks.
  destruct (split_output content) as [_ Hsplit]. cbn zeta in Hsplit.
  rewrite Hsplit.
  destruct (all_kept (chunks (split content))) as [|l ls] eqn:E; [reflexivity|].
  rewrite <- E. now rewrite all_kept_idempotent.
Qed.

End Sizes.

(** X1: [has_courtyard] is true exactly of the contents that hold, at some
    place, the word [layer], one or more white-space characters (a newline
    is one), and the quoted tag [F.CrtYd] or [B.CrtYd]. *)
Theorem has_courtyard_iff (content : str) :
  has_courtyard content = true <->
  exists before text : str, content = before ++ text /\ courtyard_text text.
Proof.
  unfold has_courtyard. rewrite search_true.
  split; intros (before & text & H & Ht); exists before, text;
    (split; [exact H|]); now apply courtyard_at_spec.
Qed.

(** X2: the output is never longer than the input, and it is shorter by
    one character at least for every element the scan removed. *)
Theorem strip_never_grows (content : str) :
  (length (strip_courtyard_from_content content) +
   removed_count (scan (split content)) <= length content)%nat.
Proof.
  pose proof (strip_length content) as H. cbn zeta in H.
  rewrite removed_count_scan.
  destruct (Nat.eqb_spec (count_discarded (chunks (split content))) 0); lia.
Qed.

(** X3: the counter [removed_count], which decides whether the removal is
    logged, is zero exactly when the function returns its input unchanged. *)
Theorem removed_count_zero_iff_unchanged (content : str) :
  removed_count (scan (split content)) = O <->
  strip_courtyard_from_content content = content.
Proof. apply strip_unchanged_iff. Qed.

(** X4: the output holds no element left to remove: a scan of it removes
    nothing. *)
Theorem output_has_nothing_to_remove (content : str) :
  removed_count (scan (split (strip_courtyard_from_content content))) = O.
Proof. apply strip_unchanged_iff, strip_strip. Qed.

Section Frames.

Lemma split_app (a b : str) : split (a ++ newline :: b) = split a ++ split b.
Proof.
  induction a as [|c a IH]; [reflexivity|].
  cbn [app split]. destruct (Ascii.eqb c newline); rewrite IH; [reflexivity|].
  pose proof (split_not_nil a). now destruct (split a).
Qed.

(** Lines that open nothing are chunks of their own. *)
Lemma all_kept_no_opener (before rest : list str) :
  no_opener before ->
  all_kept (chunks (before ++ rest)) = before ++ all_kept (chunks rest)
  /\ count_discarded (chunks (before ++ rest)) = count_discarded (chunks rest).
Proof.
  induction 1 as [|l before Hl _ [IH1 IH2]]; [now split|].
  cbn [app]. rewrite chunks_cons, Hl, all_kept_cons, count_discarded_cons.
  cbn [discarded]. unfold kept_lines. cbn [discarded chunk_lines app].
  now rewrite IH1, IH2.
Qed.

(** An element that closes on its opening line is a chunk of its own. *)
Lemma chunks_closed_line (line : str) (rest : list str) :
  geom_match line = true -> paren_delta line <= 0 ->
  chunks (line :: rest) = Element [line] :: chunks rest.
Proof.
  intros Hg Hd. rewrite chunks_cons, Hg.
  assert (He : extent (paren_delta line) rest = O).
  { destruct rest as [|l rest]; cbn [extent]; [reflexivity|].
    destruct (0 <? paren_delta line) eqn:E; [|reflexivity].
    apply Z.ltb_lt in E. lia. }
  now rewrite He.
Qed.

Lemma all_lines_app (cs1 cs2 : list chunk) :
  all_lines (cs1 ++ cs2) = all_lines cs1 ++ all_lines cs2.
Proof.
  induction cs1 as [|c cs1 IH]; [reflexivity|].
  cbn [app]. now rewrite !all_lines_cons, IH, app_assoc.
Qed.

(** The lines read so far, as the chunks handled so far. *)
Lemma take_all_lines (k : nat) (lines : list str) :
  exists later : list str,
    lines = all_lines (take k (chunks lines)) ++ later
    /\ take (length (all_lines (take k (chunks lines)))) lines =
         all_lines (take k (chunks lines)).
Proof.
  exists (all_lines (drop k (chunks lines))).
  assert (H : lines = all_lines (take k (chunks lines)) ++
                      all_lines (drop k (chunks lines)))
    by now rewrite <- all_lines_app, take_drop, all_lines_chunks.
  split; [exact H|]. rewrite H at 2. now rewrite take_app_length.
Qed.

End Frames.

(** X5: the lines before the first line that opens an element are
    untouched, and what follows them is handled as if it stood alone: the
    output is those lines and then the lines kept of the rest. *)
Theorem lines_before_first_element_kept (before rest : str) :
  no_opener (split before) ->
  strip_courtyard_from_content (before ++ newline :: rest) =
    join (split before ++ result_lines (scan (split rest)))
  /\ removed_count (scan (split (before ++ newline :: rest))) =
       removed_count (scan (split rest)).
Proof.
  intros H. rewrite strip_chunks, !removed_count_scan, split_app.
  destruct (all_kept_no_opener (split before) (split rest) H) as [-> ->].
  now rewrite scan_chunks.
Qed.

Lemma lines_before_first_element_kept_witness :
  strip_courtyard_from_content (lit "(footprint demo" ++ newline :: join (drop 1 demo_lines))
  = join (split (lit "(footprint demo") ++
          result_lines (scan (split (join (drop 1 demo_lines))))).
Proof.
  apply (lines_before_first_element_kept (lit "(footprint demo")
           (join (drop 1 demo_lines))).
  repeat constructor.
Defined.

(** X6: a content in which no line opens one of the five elements comes
    back unchanged, courtyard tags or not: a tag on any other item of the
    footprint stays. *)
Theorem content_without_opener_unchanged (content : str) :
  no_opener (split content) ->
  strip_courtyard_from_content content = content.
Proof.
  intros H. rewrite strip_chunks.
  rewrite <- (app_nil_r (split content)).
  destruct (all_kept_no_opener (split content) [] H) as [-> _].
  rewrite chunks_nil. cbn [all_kept map concat]. rewrite !app_nil_r.
  apply join_split.
Qed.

Lemma content_without_opener_unchanged_witness :
  has_courtyard tagged_text_line = true
  /\ strip_courtyard_from_content tagged_text_line = tagged_text_line.
Proof.
  split; [reflexivity|].
  apply (content_without_opener_unchanged tagged_text_line).
  repeat constructor.
Defined.

(** X7: an element that closes on its opening line is judged by that line
    alone: the line is dropped when it holds the tag and kept otherwise,
    and the lines after it are handled as if they stood alone. *)
Theorem one_line_element_judged_alone (line rest : str) :
  one_line line ->
  geom_match line = true ->
  paren_delta line <= 0 ->
  strip_courtyard_from_content (line ++ newline :: rest) =
    join ((if has_courtyard line then [] else [line]) ++
          result_lines (scan (split rest))).
Proof.
  intros Hl Hg Hd. rewrite strip_chunks, split_app_newline by exact Hl.
  rewrite chunks_closed_line, all_kept_cons, scan_chunks by assumption.
  reflexivity.
Qed.

Lemma one_line_element_judged_alone_witness :
  strip_courtyard_from_content
    ((lit "(fp_line (layer " ++ quoted "B.CrtYd" ++ lit "))") ++ newline :: lit ")")
  = lit ")".
Proof.
  rewrite (one_line_element_judged_alone
             (lit "(fp_line (layer " ++ quoted "B.CrtYd" ++ lit "))") (lit ")")).
  - reflexivity.
  - intros H. vm_compute in H.
    repeat (destruct H as [H|H]; [discriminate|]). exact H.
  - reflexivity.
  - vm_compute. discriminate.
Defined.

(** X8: what the outer loop keeps true at every iteration: [i] stays
    inside the list, the lines collected so far are a subsequence of the
    lines read so far, and every removed element accounts for one line
    read at least. *)
Theorem scan_loop_invariant (lines : list str) (k : nat) :
  let st := after k lines in
  (i st <= length lines)%nat
  /\ sublist (result_lines st) (take (i st) lines)
  /\ (removed_count st + length (result_lines st) <= i st)%nat.
Proof.
  cbn zeta. rewrite after_chunks. cbn [i result_lines removed_count].
  destruct (take_all_lines k lines) as (later & Hl & ->).
  assert (Hs : Forall scanned (take k (chunks lines)))
    by apply Forall_take, chunks_scanned.
  split; [|split].
  - rewrite Hl at 2. rewrite length_app. lia.
  - apply all_kept_sublist.
  - now destruct (weight_all_kept _ Hs).
Qed.

(** * Further properties of process_file and of the loop over the files *)

Section FileProperties.

Context {P : Platform}.

Lemma on_raise_log (input_path : path) (w : world) (l new : list log_record)
    (e : exception) :
  on_raise input_path w (l ++ new) e =
    let '(m', r) := on_raise input_path w new e in
    (Machine (fs m') (l ++ logged m'), r).
Proof.
  unfold on_raise. destruct (is_Exception e); cbn [fs logged];
    now rewrite <- ?app_assoc.
Qed.

(** The records already logged change nothing of a call. *)
Lemma process_file_log (input_path output_path : path)
    (strip_courtyard strip_designator : bool) (w : world) (l : list log_record) :
  process_file input_path output_path strip_courtyard strip_designator
    (Machine w l) =
    let '(m', r) :=
      process_file input_path output_path strip_courtyard strip_designator
        (Machine w []) in
    (Machine (fs m') (l ++ logged m'), r).
Proof.
  rewrite !process_file_cases. cbn [fs logged].
  destruct (read_text w input_path) as [content|e].
  - cbn zeta. cbn [app].
    destruct (write_text w output_path _) as [w' [u|e]].
    + cbn [fs logged]. now rewrite <- app_assoc.
    + apply on_raise_log.
  - rewrite <- (app_nil_r l) at 1. apply on_raise_log.
Qed.

Lemma process_files_log (output_file : path -> path) (kicad_files : list path)
    (strip_courtyard strip_designator : bool) (success_count : nat)
    (w : world) (l : list log_record) :
  process_files output_file kicad_files strip_courtyard strip_designator
    success_count (Machine w l) =
    let '(m', r) :=
      process_files output_file kicad_files strip_courtyard strip_designator
        success_count (Machine w []) in
    (Machine (fs m') (l ++ logged m'), r).
Proof.
  revert success_count w l.
  induction kicad_files as [|f files IH]; intros k w l; cbn [process_files].
  - unfold ret. cbn. now rewrite app_nil_r.
  - unfold bind. rewrite (process_file_log _ _ _ _ w l).
    destruct (process_file f (output_file f) strip_courtyard strip_designator
                (Machine w [])) as [[w1 l1] [ok|e]]; cbn [fs logged].
    + rewrite (IH _ w1 (l ++ l1)), (IH _ w1 l1).
      destruct (process_files output_file files _ _ _ (Machine w1 []))
        as [[w2 l2] r]. cbn [fs logged]. now rewrite app_assoc.
    + reflexivity.
Qed.

Lemma process_files_app (output_file : path -> path) (files1 files2 : list path)
    (strip_courtyard strip_designator : bool) (success_count : nat) (m : machine) :
  process_files output_file (files1 ++ files2) strip_courtyard strip_designator
    success_count m =
    bind (process_files output_file files1 strip_courtyard strip_designator
            success_count)
         (process_files output_file files2 strip_courtyard strip_designator) m.
Proof.
  revert success_count m.
  induction files1 as [|f files1 IH]; intros k m; cbn [app process_files].
  - reflexivity.
  - unfold bind at 1 2 3.
    destruct (process_file f (output_file f) strip_courtyard strip_designator m)
      as [m1 [ok|e]]; [|reflexivity].
    rewrite IH. reflexivity.
Qed.

End FileProperties.

(** X9: [process_file] only appends to the log, and nothing else of what
    it does depends on the records logged before the call. *)
Theorem process_file_appends_to_log (P : Platform) (input_path output_path : path)
    (strip_courtyard strip_designator : bool) (w : world) (l : list log_record) :
  process_file input_path output_path strip_courtyard strip_designator
    (Machine w l) =
    let '(m', r) :=
      process_file input_path output_path strip_courtyard strip_designator
        (Machine w []) in
    (Machine (fs m') (l ++ logged m'), r).
Proof. apply process_file_log. Qed.

(** X10: [process_file] writes once at most, to [output_path]: when the
    read raises, the files are as they were, and otherwise they are what
    the one write of the processed content left, whether it succeeded or
    not. *)
Theorem process_file_writes_once (P : Platform) (input_path output_path : path)
    (strip_courtyard strip_designator : bool) (m : machine) :
  fs (fst (process_file input_path output_path strip_courtyard strip_designator m)) =
    match read_text (fs m) input_path with
    | Raise _ => fs m
    | Ok content =>
        fst (write_text (fs m) output_path (processed strip_courtyard content))
    end.
Proof.
  rewrite process_file_cases. unfold on_raise.
  destruct (read_text (fs m) input_path) as [content|e].
  - cbn zeta. destruct (write_text (fs m) output_path _) as [w [u|e]];
      [|destruct (is_Exception e)]; reflexivity.
  - destruct (is_Exception e); reflexivity.
Qed.

(** X11: with [strip_courtyard] set, the content [process_file] hands to
    the write holds no element left to remove, whatever was read. *)
Theorem written_content_has_nothing_to_remove (content : str) :
  removed_count (scan (split (processed true content))) = O.
Proof.
  unfold processed. cbn [andb].
  destruct (has_courtyard content) eqn:Hc.
  - apply strip_unchanged_iff, strip_strip.
  - apply strip_unchanged_iff.
    rewrite strip_chunks, all_kept_without_courtyard; [apply join_split|].
    now rewrite join_split.
Qed.

(** X12: the loop over the files composes: running it on a list of files
    in two parts is running it on the first part and then on the second,
    with the count of successes carried over; what the first part lets out
    ends the loop. *)
Theorem process_files_in_two_parts (P : Platform) (output_file : path -> path)
    (files1 files2 : list path) (strip_courtyard strip_designator : bool)
    (success_count : nat) (m : machine) :
  process_files output_file (files1 ++ files2) strip_courtyard strip_designator
    success_count m =
    match process_files output_file files1 strip_courtyard strip_designator
            success_count m with
    | (m1, Ok n) =>
        process_files output_file files2 strip_courtyard strip_designator n m1
    | (m1, Raise e) => (m1, Raise e)
    end.
Proof. rewrite process_files_app. reflexivity. Qed.

(** * Properties of main *)

Section MainProperties.

Context {P : Platform} {D : Directory P}.

Lemma length_insert_sorted (x : path) (s : list path) :
  length (insert_sorted x s) = S (length s).
Proof.
  induction s as [|y s IH]; [reflexivity|]. cbn [insert_sorted].
  destruct (path_lt y x); cbn [length]; now rewrite ?IH.
Qed.

Lemma length_sorted (l : list path) : length (sorted l) = length l.
Proof.
  induction l as [|x l IH]; [reflexivity|].
  cbn [sorted length]. now rewrite length_insert_sorted, IH.
Qed.

Lemma file_records_app (lg1 lg2 : list main_record) :
  file_records (lg1 ++ lg2) = file_records lg1 ++ file_records lg2.
Proof.
  induction lg1 as [|r lg1 IH]; [reflexivity|].
  destruct r; cbn [app file_records]; now rewrite IH.
Qed.

Lemma file_records_map (l : list log_record) :
  file_records (map FromProcessFile l) = l.
Proof. induction l as [|r l IH]; [reflexivity|]. cbn. now rewrite IH. Qed.

(** A call that lets something out closes no file. *)
Lemma process_file_closes (input_path output_path : path)
    (strip_courtyard strip_designator : bool) (m : machine) :
  exists (w : world) (new : list log_record) (r : result exception bool),
    process_file input_path output_path strip_courtyard strip_designator m =
      (Machine w (logged m ++ new), r)
    /\ match r with
       | Ok ok =>
           length (List.filter is_success new) = (if ok then 1 else 0)%nat
           /\ length (List.filter is_failure new) = (if ok then 0 else 1)%nat
       | Raise e =>
           is_Exception e = false
           /\ List.filter is_success new = []
           /\ List.filter is_failure new = []
       end.
Proof.
  rewrite process_file_cases. unfold on_raise.
  destruct (read_text (fs m) input_path) as [content|e].
  - cbn zeta.
    destruct (progress_log_neutral strip_courtyard input_path content) as [Hs Hf].
    destruct (write_text (fs m) output_path _) as [w [u|e]];
      [|destruct (is_Exception e) eqn:He].
    + eexists w, (progress_log _ _ _ ++ [_]), _.
      rewrite app_assoc. split; [reflexivity|]. cbn beta iota.
      rewrite !List.filter_app, Hs, Hf.
      destruct (strip_courtyard && has_courtyard content)%bool; now split.
    + eexists w, (progress_log _ _ _ ++ [_]), _.
      rewrite app_assoc. split; [reflexivity|]. cbn beta iota.
      rewrite !List.filter_app, Hs, Hf. now split.
    + eexists w, (progress_log _ _ _), _. split; [reflexivity|]. now split.
  - destruct (is_Exception e) eqn:He.
    + eexists (fs m), [_], _. split; [reflexivity|]. now split.
    + exists (fs m), [], (Raise e). rewrite app_nil_r.
      destruct m. now split.
Qed.

(** The loop over the files: when it ends by itself every file has closed
    once, and when a call lets something out the file of that call and
    the files after it have not. *)
Lemma process_files_closes (output_file : path -> path) (kicad_files : list path)
    (strip_courtyard strip_designator : bool) (success_count : nat) (m : machine) :
  exists (w : world) (new : list log_record) (r : result exception nat),
    process_files output_file kicad_files strip_courtyard strip_designator
      success_count m = (Machine w (logged m ++ new), r)
    /\ match r with
       | Ok n =>
           n = (success_count + length (List.filter is_success new))%nat
           /\ (length (List.filter is_success new) +
               length (List.filter is_failure new))%nat = length kicad_files
       | Raise e =>
           is_Exception e = false
           /\ (length (List.filter is_success new) +
               length (List.filter is_failure new) < length kicad_files)%nat
       end.
Proof.
  revert success_count m.
  induction kicad_files as [|f files IH]; intros k m; cbn [process_files].
  - exists (fs m), [], (Ok k). unfold ret. rewrite app_nil_r. destruct m.
    cbn. repeat split. lia.
  - unfold bind.
    destruct (process_file_closes f (output_file f) strip_courtyard
                strip_designator m) as (w & new & [ok|e] & -> & H).
    + destruct H as (Hs & Hf).
      destruct (IH (if ok then S k else k) (Machine w (logged m ++ new)))
        as (w' & new' & r & -> & Hr).
      exists w', (new ++ new'), r. cbn [logged]. rewrite <- app_assoc.
      split; [reflexivity|]. rewrite !List.filter_app, !length_app, Hs, Hf.
      cbn [length]. destruct r as [n|e].
      * destruct Hr as [-> Hr]. destruct ok; split; lia.
      * destruct Hr as [He Hr]. split; [exact He|]. destruct ok; lia.
    + exists w, new, (Raise e). split; [reflexivity|].
      destruct H as (He & -> & ->). split; [exact He|]. cbn [length]. lia.
Qed.

(** One pass over the files for a configuration, when the directory
    could be made. *)
Lemma run_config_closes (kicad_files : list path) (suffix output_dir_name : str)
    (strip_courtyard strip_designator : bool) (w w1 : world) (u : unit)
    (lg : list main_record) (overall_success : bool) :
  mkdir w (child script_dir output_dir_name) = (w1, Ok u) ->
  exists (w' : world) (lg' : list main_record) (r : result exception bool)
         (new : list log_record),
    run_config kicad_files
      (suffix, output_dir_name, strip_courtyard, strip_designator)
      w lg overall_success = (w', lg', r)
    /\ file_records lg' = file_records lg ++ new
    /\ match r with
       | Ok overall_success' =>
           (length (List.filter is_success new) +
            length (List.filter is_failure new))%nat = length kicad_files
           /\ overall_success' =
                (if Nat.eqb (length (List.filter is_failure new)) 0
                 then overall_success else false)
       | Raise e =>
           is_Exception e = false
           /\ (length (List.filter is_success new) +
               length (List.filter is_failure new) < length kicad_files)%nat
       end.
Proof.
  intros Hm. unfold run_config. rewrite Hm.
  destruct (process_files_closes
              (output_file_for (child script_dir output_dir_name) suffix)
              (sorted kicad_files) strip_courtyard strip_designator 0
              (Machine w1 [])) as (w2 & new & r & -> & Hr).
  cbn [logged app fs]. rewrite length_sorted in Hr.
  destruct r as [n|e]; eexists _, _, _, new; (split; [reflexivity|]);
    rewrite !file_records_app, file_records_map; cbn [file_records];
    rewrite !app_nil_r; (split; [reflexivity|]).
  - destruct Hr as [-> Hn]. split; [exact Hn|]. cbn [Nat.add].
    destruct (Nat.ltb_spec (length (List.filter is_success new)) (length kicad_files));
      destruct (Nat.eqb_spec (length (List.filter is_failure new)) 0);
      try reflexivity; lia.
  - exact Hr.
Qed.

(** X13: how [main] ends.  It calls [sys.exit(1)] with nothing touched
    when the input directory is missing, and [sys.exit(0)] with nothing
    touched when the directory holds no footprint file.  Otherwise, when
    the output directory could be made, a file closes with one success or
    one error record or not at all, and [main] returns exactly when every
    file closed with a success record, calls [sys.exit(1)] exactly when
    every file closed and one at least with an error record, and is ended
    by an exception exactly when a file did not close; that exception is
    no instance of [Exception]. *)
Theorem main_exit_status (w : world) :
  let input_dir := child script_dir (lit "APRLPrints.pretty") in
  let output_dir := child script_dir (lit "APRLPrints-nofp.pretty") in
  let files := glob w input_dir (lit "*.kicad_mod") in
  let successes :=
    length (List.filter is_success (file_records (snd (fst (main w))))) in
  let failures :=
    length (List.filter is_failure (file_records (snd (fst (main w))))) in
  (path_exists w input_dir = false ->
   main w = (w, [ErrorInputDirNotFound input_dir], SysExit 1))
  /\ (path_exists w input_dir = true -> files = [] ->
      main w = (w, [WarningNoFiles input_dir], SysExit 0))
  /\ (path_exists w input_dir = true -> files <> [] ->
      forall (w1 : world) (u : unit), mkdir w output_dir = (w1, Ok u) ->
      (successes + failures <= length files)%nat
      /\ (snd (main w) = Returned <-> successes = length files)
      /\ (snd (main w) = SysExit 1 <->
          (successes + failures)%nat = length files /\ (0 < failures)%nat)
      /\ ((exists e, snd (main w) = Uncaught e) <->
          (successes + failures < length files)%nat)
      /\ (forall e, snd (main w) = Uncaught e -> is_Exception e = false)).
Proof.
  intros input_dir output_dir files successes failures.
  subst successes failures. unfold main. fold input_dir. fold files.
  split; [intros ->; reflexivity|].
  split; [intros -> ->; reflexivity|].
  intros -> Hf w1 u Hm. cbn [negb].
  destruct files as [|f files'] eqn:Ef; [congruence|].
  unfold configs. cbn [run_configs].
  destruct (run_config_closes (f :: files') (lit "-nofp")
              (lit "APRLPrints-nofp.pretty") true false w w1 u
              [InfoFound (length (f :: files'))] true Hm)
    as (w' & lg' & r & new & -> & Hrec & Hr).
  cbn [file_records app] in Hrec.
  destruct r as [overall|e].
  - destruct Hr as [Hn ->].
    destruct (Nat.eqb_spec (length (List.filter is_failure new)) 0) as [Hz|Hz];
      cbn [snd fst]; rewrite file_records_app, Hrec; cbn [file_records];
      rewrite app_nil_r.
    + split; [lia|]. split; [split; [lia|reflexivity]|].
      split; [split; [discriminate|lia]|].
      split; [split; [intros [e He]; discriminate|lia]|]. discriminate.
    + split; [lia|]. split; [split; [discriminate|lia]|].
      split; [split; [intros _; split; lia|reflexivity]|].
      split; [split; [intros [e He]; discriminate|lia]|]. discriminate.
  - destruct Hr as [He Hn]. cbn [snd fst]. rewrite Hrec.
    split; [lia|]. split; [split; [discriminate|lia]|].
    split; [split; [discriminate|lia]|].
    split; [split; [intros _; exact Hn|intros _; now exists e]|].
    intros e' [= <-]. exact He.
Qed.

(** X14: a failure to make the output directory is not handled.  Whatever
    [mkdir] raises, an instance of [Exception] or not, ends [main] before
    any file is read: nothing is logged after the count of the files. *)
Theorem mkdir_failure_ends_main (w w1 : world) (e : exception) :
  let input_dir := child script_dir (lit "APRLPrints.pretty") in
  let files := glob w input_dir (lit "*.kicad_mod") in
  path_exists w input_dir = true ->
  files <> [] ->
  mkdir w (child script_dir (lit "APRLPrints-nofp.pretty")) = (w1, Raise e) ->
  main w = (w1, [InfoFound (length files)], Uncaught e).
Proof.
  intros input_dir files He Hf Hm. unfold main. fold input_dir. fold files.
  rewrite He. cbn [negb]. destruct files as [|f files']; [congruence|].
  unfold configs. cbn [run_configs]. unfold run_config. now rewrite Hm.
Qed.

End MainProperties.

Lemma main_exit_status_witness :
  snd (main (P := demo_platform) (D := demo_directory) (fs demo_machine))
    = @SysExit demo_platform 1
  /\ length (List.filter (@is_failure demo_platform)
       (file_records
          (snd (fst (main (P := demo_platform) (D := demo_directory)
                       (fs demo_machine)))))) = 1%nat.
Proof.
  destruct (@main_exit_status demo_platform demo_directory (fs demo_machine))
    as (_ & _ & H).
  destruct (H eq_refl ltac:(discriminate) (fs demo_machine) tt eq_refl)
    as (_ & _ & [_ Hexit] & _).
  split; [|vm_compute; reflexivity].
  apply Hexit. split; vm_compute; [reflexivity|lia].
Defined.

Lemma mkdir_failure_ends_main_witness :
  main (P := demo_platform) (D := readonly_directory) (fs demo_machine)
  = (fs demo_machine, [@InfoFound demo_platform 2],
     @Uncaught demo_platform PermissionError).
Proof.
  apply (@mkdir_failure_ends_main demo_platform readonly_directory
           (fs demo_machine) (fs demo_machine) PermissionError eq_refl).
  - discriminate.
  - reflexivity.
Defined.

Example main_demo_exit :
  snd (main (P := demo_platform) (D := demo_directory) (fs demo_machine))
  = @SysExit demo_platform 1.
Proof. vm_compute. reflexivity. Qed.

(** X15: the indentation of a line does not matter to the recognition of
    an element: white space put before a line changes neither whether it
    opens an element nor its count of parentheses. *)
Theorem indentation_does_not_matter (ws line : str) :
  spaces ws ->
  geom_match (ws ++ line) = geom_match line
  /\ paren_delta (ws ++ line) = paren_delta line.
Proof.
  intros Hws. split.
  - unfold geom_match. f_equal.
    induction Hws as [|c ws Hc _ IH]; [reflexivity|].
    cbn [app skip_spaces]. now rewrite Hc.
  - unfold paren_delta.
    induction Hws as [|c ws Hc _ IH]; [reflexivity|]. cbn [app count].
    destruct (Ascii.eqb_spec c "(") as [->|_]; [discriminate|].
    destruct (Ascii.eqb_spec c ")") as [->|_]; [discriminate|].
    lia.
Qed.

Lemma indentation_does_not_matter_witness :
  geom_match (lit "    " ++ lit "(fp_arc (start 0 0)") = true.
Proof.
  rewrite (proj1 (indentation_does_not_matter (lit "    ")
                    (lit "(fp_arc (start 0 0)")
                    ltac:(repeat constructor))).
  reflexivity.
Defined.
